(** * fpf: form value population and error message insertion

    A shallow embedding of the Go package [github.com/saracen/fpf]
    (files [fpf.go] and [attr/attr.go]) together with the part of
    [golang.org/x/net/html] node handling that the package calls.

    Nodes of the document live in a store and are named by their address,
    so that node identity, parent/sibling links and in-place mutation are
    the ones of the Go program.  Go slices of attributes are modelled by
    the cells their header covers; the one place where the source keeps a
    second header on the same backing array ([Attributes.Remove]) is
    written out cell by cell. *)

From stdpp Require Import gmap strings list fin_maps.

Set Default Proof Using "Type".
Open Scope string_scope.
Open Scope list_scope.
Open Scope nat_scope.

(** ** Outcomes of running Go code *)

(** A Go [error] value. *)
Definition error := string.

(** Run-time panics the embedded code can raise.  [IndexOutOfRange s i n]
    is Go's "index out of range [i] with length n" raised at an index
    expression on the slice the source calls [s]. *)
Inductive fault :=
  | IndexOutOfRange (slice : string) (i len : nat)
  | NilDereference
  | AttachedChild
  | NonChild
  | InvalidPointer.

(** [Ret] is a normal return, [Panic] an unrecovered panic, [Timeout] the
    exhaustion of the fuel that bounds pointer-chasing loops. *)
Inductive res (A : Type) :=
  | Ret (a : A)
  | Panic (f : fault)
  | Timeout.
Arguments Ret {A} a.
Arguments Panic {A} f.
Arguments Timeout {A}.

#[global] Instance res_ret : MRet res := fun A a => Ret a.
#[global] Instance res_bind : MBind res := fun A B k m =>
  match m with
  | Ret a => k a
  | Panic f => Panic f
  | Timeout => Timeout
  end.

(** ** Package html: nodes and their links *)

Module html.

(** [html.Attribute]. *)
Record Attribute := mkAttribute {
  Namespace : string;
  Key : string;
  Val : string
}.

#[global] Instance Attribute_eq_dec : EqDecision Attribute.
Proof. solve_decision. Defined.

(** [html.NodeType]. *)
Inductive NodeType :=
  | ErrorNode
  | TextNode
  | DocumentNode
  | ElementNode
  | CommentNode
  | DoctypeNode.

#[global] Instance NodeType_eq_dec : EqDecision NodeType.
Proof. solve_decision. Defined.

(** A [*html.Node]: the address of a node in the store; [nil] is [None]
    of [option ptr]. *)
Abbreviation ptr := nat.

(** [html.Node], with the fields the package reads or writes ([DataAtom]
    and the node's own [Namespace] are never consulted by it). *)
Record Node := mkNode {
  Parent : option ptr;
  FirstChild : option ptr;
  LastChild : option ptr;
  PrevSibling : option ptr;
  NextSibling : option ptr;
  Type' : NodeType;
  Data : string;
  Attr : list Attribute
}.

#[global] Instance Node_eq_dec : EqDecision Node.
Proof. solve_decision. Defined.

(** The store of nodes: address [p] holds the node [h !! p]. *)
Abbreviation heap := (list Node).

Definition set_Parent (v : option ptr) (n : Node) : Node :=
  mkNode v (FirstChild n) (LastChild n) (PrevSibling n) (NextSibling n)
         (Type' n) (Data n) (Attr n).
Definition set_FirstChild (v : option ptr) (n : Node) : Node :=
  mkNode (Parent n) v (LastChild n) (PrevSibling n) (NextSibling n)
         (Type' n) (Data n) (Attr n).
Definition set_LastChild (v : option ptr) (n : Node) : Node :=
  mkNode (Parent n) (FirstChild n) v (PrevSibling n) (NextSibling n)
         (Type' n) (Data n) (Attr n).
Definition set_PrevSibling (v : option ptr) (n : Node) : Node :=
  mkNode (Parent n) (FirstChild n) (LastChild n) v (NextSibling n)
         (Type' n) (Data n) (Attr n).
Definition set_NextSibling (v : option ptr) (n : Node) : Node :=
  mkNode (Parent n) (FirstChild n) (LastChild n) (PrevSibling n) v
         (Type' n) (Data n) (Attr n).
Definition set_Attr (v : list Attribute) (n : Node) : Node :=
  mkNode (Parent n) (FirstChild n) (LastChild n) (PrevSibling n) (NextSibling n)
         (Type' n) (Data n) v.

(** Reading through a pointer. *)
Definition load (h : heap) (p : ptr) : res Node :=
  match h !! p with
  | Some n => Ret n
  | None => Panic InvalidPointer
  end.

(** Writing a field through a pointer. *)
Definition store (h : heap) (p : ptr) (f : Node → Node) : res heap :=
  match h !! p with
  | Some n => Ret (<[p := f n]> h)
  | None => Panic InvalidPointer
  end.

(** Reading or writing through a pointer that may be [nil]. *)
Definition deref (h : heap) (o : option ptr) : res Node :=
  match o with
  | Some p => load h p
  | None => Panic NilDereference
  end.

Definition store_at (h : heap) (o : option ptr) (f : Node → Node) : res heap :=
  match o with
  | Some p => store h p f
  | None => Panic NilDereference
  end.

(** [&html.Node{...}]: a fresh node at the next free address. *)
Definition alloc (h : heap) (n : Node) : ptr * heap :=
  (length h, h ++ [n]).

(** The guard shared by [InsertBefore] and [AppendChild]. *)
Definition attached (c : Node) : bool :=
  bool_decide (Parent c ≠ None ∨ PrevSibling c ≠ None ∨ NextSibling c ≠ None).

(** [func (n *Node) InsertBefore(newChild, oldChild *Node)] of
    x/net/html.  The receiver may be [nil]: it is only dereferenced where
    [oldChild] gives no neighbour on one side. *)
Definition InsertBefore (n : option ptr) (newChild : ptr) (oldChild : option ptr)
    (h : heap) : res heap :=
  nc ← load h newChild;
  if attached nc then Panic AttachedChild else
  '(prev, next) ← match oldChild with
                  | Some o => no ← load h o; Ret (PrevSibling no, Some o)
                  | None => nn ← deref h n; Ret (LastChild nn, None)
                  end;
  h1 ← match prev with
       | Some pv => store h pv (set_NextSibling (Some newChild))
       | None => store_at h n (set_FirstChild (Some newChild))
       end;
  h2 ← match next with
       | Some nx => store h1 nx (set_PrevSibling (Some newChild))
       | None => store_at h1 n (set_LastChild (Some newChild))
       end;
  h3 ← store h2 newChild (set_Parent n);
  h4 ← store h3 newChild (set_PrevSibling prev);
  store h4 newChild (set_NextSibling next).

(** [func (n *Node) AppendChild(c *Node)] of x/net/html. *)
Definition AppendChild (n : ptr) (c : ptr) (h : heap) : res heap :=
  nc ← load h c;
  if attached nc then Panic AttachedChild else
  nn ← load h n;
  let last := LastChild nn in
  h1 ← match last with
       | Some l => store h l (set_NextSibling (Some c))
       | None => store h n (set_FirstChild (Some c))
       end;
  h2 ← store h1 n (set_LastChild (Some c));
  h3 ← store h2 c (set_Parent (Some n));
  store h3 c (set_PrevSibling last).

(** [func (n *Node) RemoveChild(c *Node)] of x/net/html, statement by
    statement: every read sees the writes before it. *)
Definition RemoveChild (n : ptr) (c : ptr) (h : heap) : res heap :=
  nc ← load h c;
  if decide (Parent nc ≠ Some n) then Panic NonChild else
  nn ← load h n;
  h1 ← (if decide (FirstChild nn = Some c)
        then store h n (set_FirstChild (NextSibling nc)) else Ret h);
  nc1 ← load h1 c;
  h2 ← match NextSibling nc1 with
       | Some nx => store h1 nx (set_PrevSibling (PrevSibling nc1))
       | None => Ret h1
       end;
  nn2 ← load h2 n;
  nc2 ← load h2 c;
  h3 ← (if decide (LastChild nn2 = Some c)
        then store h2 n (set_LastChild (PrevSibling nc2)) else Ret h2);
  nc3 ← load h3 c;
  h4 ← match PrevSibling nc3 with
       | Some pv => store h3 pv (set_NextSibling (NextSibling nc3))
       | None => Ret h3
       end;
  h5 ← store h4 c (set_Parent None);
  h6 ← store h5 c (set_PrevSibling None);
  store h6 c (set_NextSibling None).

End html.

(** [html.Attribute{Key: k, Val: v}]. *)
Definition attribute (k v : string) : html.Attribute :=
{| html.Namespace := EmptyString; html.Key := k; html.Val := v |}.

(** ** Package attr *)

Module attr.

(** [type Attributes []html.Attribute]: the cells covered by the slice
    header, in order. *)
Abbreviation Attributes := (list html.Attribute).

(** Index of the cell [Attributes.Attribute] returns the address of:
    the first cell whose key is [name], or [None] for [nil]. *)
Fixpoint index_from (i : nat) (attrs : Attributes) (name : string) : option nat :=
  match attrs with
  | [] => None
  | a :: attrs' =>
      if decide (html.Key a = name) then Some i else index_from (S i) attrs' name
  end.

Definition Attribute (attrs : Attributes) (name : string) : option nat :=
  index_from 0 attrs name.

(** [p.Val] for the pointer [p] to cell [i] of the backing array. *)
Definition Val_at (attrs : list html.Attribute) (i : nat) : string :=
  match attrs !! i with
  | Some a => html.Val a
  | None => EmptyString
  end.

Definition Get (attrs : Attributes) (name : string) : string :=
  match Attribute attrs name with
  | Some i => Val_at attrs i
  | None => EmptyString
  end.

Definition Has (attrs : Attributes) (name : string) : bool :=
  bool_decide (Attribute attrs name ≠ None).

(** [append(attrs[:i], attrs[i+1:]...)] on a slice of length [len]:
    the capacity suffices, so the cells [i+1 .. len-1] are copied down
    by one inside the shared backing array and every other cell keeps
    its content.  [arr] is the part of the backing array the caller's
    header covers. *)
Definition shift_down (arr : list html.Attribute) (i len : nat) : list html.Attribute :=
  take i arr ++ drop (S i) (take len arr) ++ drop (len - 1) arr.

(** The loop of [Remove].  The range expression is evaluated once, so
    the indices [idx] are those of the slice on entry; [attrs[i]] in the
    body indexes the variable [attrs] as reassigned so far, whose
    length is [len]. *)
Fixpoint Remove_loop (name : string) (idx : list nat)
    (arr : list html.Attribute) (len : nat) : res (list html.Attribute) :=
  match idx with
  | [] => Ret arr
  | i :: idx' =>
      if decide (i < len) then
        match arr !! i with
        | Some a =>
            if decide (html.Key a = name)
            then Remove_loop name idx' (shift_down arr i len) (len - 1)
            else Remove_loop name idx' arr len
        | None => Panic InvalidPointer
        end
      else Panic (IndexOutOfRange "attrs" i len)
  end.

(** [Remove] has a value receiver: the caller's slice header keeps its
    length, and what the caller sees afterwards is the content of the
    same cells.  That content is the result. *)
Definition Remove (attrs : Attributes) (name : string) : res (list html.Attribute) :=
  Remove_loop name (seq 0 (length attrs)) attrs (length attrs).

End attr.

(** ** Helpers for Go statements *)

(** [s[i]] on a slice the source calls [name]. *)
Definition index {A : Type} (name : string) (s : list A) (i : nat) : res A :=
  match s !! i with
  | Some a => Ret a
  | None => Panic (IndexOutOfRange name i (length s))
  end.

(** [for _, a := range l { s = f(s, a) }] where the body may panic. *)
Fixpoint foldM {A S : Type} (f : S → A → res S) (s : S) (l : list A) : res S :=
  match l with
  | [] => Ret s
  | a :: l' => s' ← f s a; foldM f s' l'
  end.

(** The double quote character, for markup literals. *)
Definition dq : string := String (Ascii.ascii_of_nat 34) EmptyString.

(** ** The libraries the package calls

    [html.Parse], [html.ParseFragment] and [html.Render] of x/net/html and
    the contextual escaper of html/template are outside the package; the
    package only relies on what they return.  [Parse] yields the store of
    the parsed document and its root; [ParseFragment] adds the nodes of a
    fragment to the store; [Render] takes the bytes written to the writer
    so far and gives them back extended, with the writer's error if any. *)
Class External := {
  Parse : string → error + (html.ptr * html.heap);
  ParseFragment : string → html.heap → error + (list html.ptr * html.heap);
  Render : html.heap → html.ptr → string → string * option error;
  HTMLEscape : string → string
}.

(** ** Package fpf: types *)

(** [Incident]. *)
Record Incident := mkIncident {
  Names : list string;
  Errors : list string
}.

(** [LabelableElement]. *)
Record LabelableElement := mkLabelableElement {
  Element : html.ptr;
  Labels : list html.ptr
}.

(** [IncidentInserter]: a value of the interface is its [Insert] method,
    which may mutate the document and returns a Go [error] or [nil]. *)
Definition IncidentInserter : Type :=
  list LabelableElement → list string → html.heap → res (option error * html.heap).

(** [GenericIncidentInserter]; [Template] is the text the template writes
    into the buffer when executed on the errors. *)
Record GenericIncidentInserter := mkGenericIncidentInserter {
  ErrorClass : string;
  Template : list string → string
}.

(** [FormPopulationFilter]. *)
Record FormPopulationFilter := mkFormPopulationFilter {
  IncidentInsertion : option IncidentInserter;
  IncludeHiddenInputs : bool;
  IncludePasswordInputs : bool
}.

(** [New]. *)
Definition New : FormPopulationFilter :=
  {| IncidentInsertion := None;
     IncludeHiddenInputs := true;
     IncludePasswordInputs := false |}.

(** [Form]; [Values] is a [url.Values], the three derived fields are the
    unexported ones. *)
Module Form.

Record t := mk {
  ID : string;
  Values : gmap string (list string);
  Incidents : list Incident;
  inputs : list html.ptr;
  labels : gmap html.ptr (list html.ptr);
  options : gmap html.ptr (list html.ptr)
}.

Definition set_Incidents (v : list Incident) (f : t) : t :=
  mk (ID f) (Values f) v (inputs f) (labels f) (options f).
Definition set_inputs (v : list html.ptr) (f : t) : t :=
  mk (ID f) (Values f) (Incidents f) v (labels f) (options f).
Definition set_labels (v : gmap html.ptr (list html.ptr)) (f : t) : t :=
  mk (ID f) (Values f) (Incidents f) (inputs f) v (options f).
Definition set_options (v : gmap html.ptr (list html.ptr)) (f : t) : t :=
  mk (ID f) (Values f) (Incidents f) (inputs f) (labels f) v.

End Form.

(** [m[k]] on a map of slices: a missing key reads as the nil slice. *)
Definition slice_at (m : gmap html.ptr (list html.ptr)) (k : html.ptr) : list html.ptr :=
  default [] (m !! k).

(** [formContext]. *)
Module formContext.

Record t := mk {
  Form : option html.ptr;
  Label : option html.ptr;
  Select : option html.ptr
}.

Definition set_Form (v : option html.ptr) (c : t) : t := mk v (Label c) (Select c).
Definition set_Label (v : option html.ptr) (c : t) : t := mk (Form c) v (Select c).
Definition set_Select (v : option html.ptr) (c : t) : t := mk (Form c) (Label c) v.

End formContext.

(** ** The processor *)

Module processor.

(** [processor]: the embedded [*FormPopulationFilter] is the field
    [filter]; every key of [forms] is taken to hold a [Form] of its own. *)
Record t := mk {
  filter : FormPopulationFilter;
  document : option html.ptr;
  labels : list html.ptr;
  forms : gmap string Form.t
}.

Definition set_labels (v : list html.ptr) (p : t) : t :=
  mk (filter p) (document p) v (forms p).
Definition set_forms (v : gmap string Form.t) (p : t) : t :=
  mk (filter p) (document p) (labels p) v.

(** *** traverse *)

(** The first statement of [traverse]: entering a [form] or a [label]
    element changes the copy of the context this call owns. *)
Definition enter (n : html.ptr) (nd : html.Node) (context : formContext.t) : formContext.t :=
  if decide (html.Type' nd = html.ElementNode) then
    if decide (html.Data nd = "form") then formContext.set_Form (Some n) context
    else if decide (html.Data nd = "label") then formContext.set_Label (Some n) context
    else context
  else context.

(** The [switch n.Data] that keeps the populatable kinds: [None] is an
    early return, [Some c] falls through with the context [c]. *)
Definition keep (n : html.ptr) (nd : html.Node) (context : formContext.t) : option formContext.t :=
  let data := html.Data nd in
  if decide (data = "input" ∨ data = "textarea" ∨ data = "progress" ∨ data = "meter")
  then Some context
  else if decide (data = "button") then
    if decide (attr.Get (html.Attr nd) "type" ≠ "submit") then None else Some context
  else if decide (data = "select") then Some (formContext.set_Select (Some n) context)
  else None.

(** The end of the second [if n.Type == html.ElementNode] block of
    [traverse], from [name := attributes.Get("name")] on: the node is
    appended to the inputs of its form when it is named and of a kept
    kind, and linked to the enclosing label ([context.Label != nil &&
    true] in the source). *)
Definition attach (n : html.ptr) (nd : html.Node) (formId : string) (form : Form.t)
    (context : formContext.t) (p : t) : t * formContext.t :=
  let name := attr.Get (html.Attr nd) "name" in
  if decide (name = EmptyString) then (p, context) else
  match keep n nd context with
  | None => (p, context)
  | Some context =>
      let form := Form.set_inputs (Form.inputs form ++ [n]) form in
      let form :=
        match formContext.Label context with
        | Some l =>
            Form.set_labels (<[n := slice_at (Form.labels form) n ++ [l]]>
                               (Form.labels form)) form
        | None => form
        end in
      (set_forms (<[formId := form]> (forms p)) p, context)
  end.

(** The second [if n.Type == html.ElementNode] block of [traverse], from
    its first statement to whichever [return] it reaches.  The result is
    the processor and the context as the deferred closure will see them. *)
Definition examine (h : html.heap) (n : html.ptr) (nd : html.Node)
    (context : formContext.t) (p : t) : res (t * formContext.t) :=
  if decide (html.Type' nd ≠ html.ElementNode) then Ret (p, context) else
  let attributes := html.Attr nd in
  let formAttribute := attr.Attribute attributes "form" in
  if decide (formContext.Form context = None ∧ formAttribute = None)
  then Ret (p, context) else
  let formId :=
    match formAttribute with
    | Some i => attr.Val_at attributes i
    | None => EmptyString
    end in
  formId ← (if decide (formId = EmptyString ∧ formContext.Form context ≠ None)
            then fnd ← html.deref h (formContext.Form context);
                 Ret (attr.Get (html.Attr fnd) "id")
            else Ret formId);
  match forms p !! formId with
  | None => Ret (p, context)
  | Some form =>
      if bool_decide (html.Data nd = "label") && attr.Has attributes "for"
      then Ret (set_labels (labels p ++ [n]) p, context)
      else
      match formContext.Select context with
      | Some sel =>
          if decide (html.Data nd = "option")
          then Ret (set_forms
                      (<[formId :=
                          Form.set_options
                            (<[sel := slice_at (Form.options form) sel ++ [n]]>
                               (Form.options form)) form]> (forms p)) p,
                    context)
          else Ret (attach n nd formId form context p)
      | None => Ret (attach n nd formId form context p)
      end
  end.

(** [traverse]: the node itself first, then (the deferred closure) its
    children from first to last, each with the context left by the body.
    [children] is the [for c := n.FirstChild; c != nil; c = c.NextSibling]
    loop of the closure. *)
Fixpoint traverse (fuel : nat) (h : html.heap) (n : html.ptr)
    (context : formContext.t) (p : t) : res t :=
  match fuel with
  | 0 => Timeout
  | S fuel' =>
      nd ← html.load h n;
      let context := enter n nd context in
      '(p, context) ← examine h n nd context p;
      children fuel' h (html.FirstChild nd) context p
  end
with children (fuel : nat) (h : html.heap) (c : option html.ptr)
    (context : formContext.t) (p : t) : res t :=
  match c with
  | None => Ret p
  | Some c =>
      match fuel with
      | 0 => Timeout
      | S fuel' =>
          p ← traverse fuel' h c context p;
          nc ← html.load h c;
          children fuel' h (html.NextSibling nc) context p
      end
  end.

(** *** populate *)

(** [html.Attribute{Key: "selected", Val: "selected"}] and the like are
    appended to the node's own slice. *)
Definition append_attr (h : html.heap) (n : html.ptr) (a : html.Attribute) : res html.heap :=
  html.store h n (fun nd => html.set_Attr (html.Attr nd ++ [a]) nd).

(** The body of [for _, option := range options].  [Remove] works on the
    cells of [option.Attr]; what it leaves there is what [Get] and the
    later [append] see. *)
Definition populate_option (params : list string) (h : html.heap) (option : html.ptr)
    : res html.heap :=
  nd ← html.load h option;
  optionAttributes ← attr.Remove (html.Attr nd) "selected";
  h ← html.store h option (html.set_Attr optionAttributes);
  let value := attr.Get optionAttributes "value" in
  foldM (fun h param =>
           if decide (value = param)
           then append_attr h option (attribute "selected" "selected")
           else Ret h) h params.

(** [for c := input.FirstChild; c != nil; c = c.NextSibling
      { input.RemoveChild(c) }]. *)
Fixpoint remove_children (fuel : nat) (input : html.ptr) (c : option html.ptr)
    (h : html.heap) : res html.heap :=
  match c with
  | None => Ret h
  | Some c =>
      match fuel with
      | 0 => Timeout
      | S fuel' =>
          h ← html.RemoveChild input c h;
          nc ← html.load h c;
          remove_children fuel' input (html.NextSibling nc) h
      end
  end.

(** The text node [&html.Node{Type: html.TextNode, Data: data}]. *)
Definition text_node (data : string) : html.Node :=
  html.mkNode None None None None None html.TextNode data [].

(** The [default] arm of [switch input.Data]. *)
Definition populate_default (p : t) (params : list string) (input : html.ptr)
    (attributes : list html.Attribute) (h : html.heap) : res html.heap :=
  let typ := attr.Get attributes "type" in
  if decide (typ = "radio" ∨ typ = "checkbox") then
    let value := attr.Attribute attributes "value" in
    attributes ← attr.Remove attributes "checked";
    h ← html.store h input (html.set_Attr attributes);
    check ← match value with
            | None => Ret true
            | Some i =>
                param ← index "params" params 0;
                Ret (bool_decide (attr.Val_at attributes i = param))
            end;
    if check : bool
    then append_attr h input (attribute "checked" "checked")
    else Ret h
  else if decide (typ = "file" ∨ typ = "image") then Ret h
  else if bool_decide (typ = "password") && negb (IncludePasswordInputs (filter p))
  then Ret h
  else if bool_decide (typ = "hidden") && negb (IncludeHiddenInputs (filter p))
  then Ret h
  else
    attributes ← attr.Remove attributes "value";
    h ← html.store h input (html.set_Attr attributes);
    param ← index "params" params 0;
    append_attr h input (attribute "value" param).

(** The body of [for _, input := range p.forms[formId].inputs]. *)
Definition populate_input (fuel : nat) (p : t) (form : Form.t) (h : html.heap)
    (input : html.ptr) : res html.heap :=
  nd ← html.load h input;
  let attributes := html.Attr nd in
  let name := attr.Get attributes "name" in
  match Form.Values form !! name with
  | None => Ret h
  | Some params =>
      if decide (html.Data nd = "select") then
        match Form.options form !! input with
        | Some options => foldM (populate_option params) h options
        | None => Ret h
        end
      else if decide (html.Data nd = "textarea") then
        h ← remove_children fuel input (html.FirstChild nd) h;
        param ← index "params" params 0;
        let '(text, h) := html.alloc h (text_node param) in
        html.AppendChild input text h
      else populate_default p params input attributes h
  end.

(** [populate]. *)
Definition populate (fuel : nat) (p : t) (formId : string) (h : html.heap)
    : res html.heap :=
  match forms p !! formId with
  | None => Panic NilDereference
  | Some form => foldM (populate_input fuel p form) h (Form.inputs form)
  end.

(** *** insert *)

(** The two inner loops of [insert]: the elements an incident concerns,
    with their labels, in the order of the form's inputs. *)
Definition elements_of (h : html.heap) (form : Form.t) (incident : Incident)
    : res (list LabelableElement) :=
  foldM (fun elements input =>
           nd ← html.load h input;
           Ret (fold_left
                  (fun elements name =>
                     if decide (attr.Get (html.Attr nd) "name" ≠ name) then elements
                     else elements ++
                          [ {| Element := input;
                               Labels := slice_at (Form.labels form) input |} ])
                  (Names incident) elements))
        [] (Form.inputs form).

(** [for _, incident := range form.Incidents]. *)
Fixpoint insert_incidents (Insert : IncidentInserter) (form : Form.t)
    (incidents : list Incident) (h : html.heap) : res (option error * html.heap) :=
  match incidents with
  | [] => Ret (None, h)
  | incident :: incidents' =>
      elements ← elements_of h form incident;
      if decide (0 < length elements) then
        '(err, h) ← Insert elements (Errors incident) h;
        match err with
        | Some e => Ret (Some e, h)
        | None => insert_incidents Insert form incidents' h
        end
      else insert_incidents Insert form incidents' h
  end.

(** [p.IncidentInsertion.Insert]: calling the method of a nil interface
    value panics. *)
Definition Insert_of (p : t) : IncidentInserter :=
  match IncidentInsertion (filter p) with
  | Some Insert => Insert
  | None => fun _ _ _ => Panic NilDereference
  end.

(** [insert]. *)
Definition insert (p : t) (formId : string) (h : html.heap)
    : res (option error * html.heap) :=
  match forms p !! formId with
  | None => Panic NilDereference
  | Some form => insert_incidents (Insert_of p) form (Form.Incidents form) h
  end.

End processor.

(** ** GenericIncidentInserter *)

(** The closure [addErrorClass] of [Insert]. *)
Definition addErrorClass (i : GenericIncidentInserter) (h : html.heap) (node : html.ptr)
    : res html.heap :=
  nd ← html.load h node;
  match attr.Attribute (html.Attr nd) "class" with
  | Some class =>
      html.store h node
        (html.set_Attr
           (alter (fun a => html.mkAttribute (html.Namespace a) (html.Key a)
                              (html.Val a +:+ " " +:+ ErrorClass i))
                  class (html.Attr nd)))
  | None =>
      html.store h node
        (html.set_Attr (html.Attr nd ++ [attribute "class" (ErrorClass i)]))
  end.

(** [for bp := b.Parent; bp != nil; bp = bp.Parent { if ap == bp ... }]:
    whether the walk up from [bp] meets [ap]. *)
Fixpoint meets (fuel : nat) (h : html.heap) (ap : html.ptr) (bp : option html.ptr)
    : res bool :=
  match bp with
  | None => Ret false
  | Some bp =>
      if decide (ap = bp) then Ret true else
      match fuel with
      | 0 => Timeout
      | S fuel' => nb ← html.load h bp; meets fuel' h ap (html.Parent nb)
      end
  end.

(** [for ap := a.Parent; ap != nil; ap = ap.Parent { ... }]: the first
    [ap] on the walk up from [a]'s parent that the walk up from [b]'s
    parent meets, [None] when the loop runs to its end. *)
Fixpoint first_shared (fuel : nat) (h : html.heap) (ap : option html.ptr)
    (b : html.Node) : res (option html.ptr) :=
  match ap with
  | None => Ret None
  | Some ap =>
      found ← meets fuel h ap (html.Parent b);
      if found : bool then Ret (Some ap) else
      match fuel with
      | 0 => Timeout
      | S fuel' => na ← html.load h ap; first_shared fuel' h (html.Parent na) b
      end
  end.

(** The closure [lca] of [Insert]. *)
Fixpoint lca (fuel : nat) (h : html.heap) (a : html.ptr) (next : list LabelableElement)
    : res html.ptr :=
  match next with
  | [] => Panic (IndexOutOfRange "next" 0 0)
  | next0 :: next' =>
      let b := Element next0 in
      na ← html.load h a;
      nb ← html.load h b;
      shared ← first_shared fuel h (html.Parent na) nb;
      match shared with
      | Some ap =>
          if decide (1 < length next) then lca fuel h ap next' else Ret ap
      | None => Ret a
      end
  end.

(** [GenericIncidentInserter.Insert]. *)
Definition Insert {E : External} (fuel : nat) (i : GenericIncidentInserter) : IncidentInserter :=
  fun elements errors h =>
  let buffer := Template i errors in
  match ParseFragment buffer h with
  | inl err => Ret (Some err, h)
  | inr (errorNode, h) =>
      h ← foldM (fun h element =>
                   h ← addErrorClass i h (Element element);
                   foldM (addErrorClass i) h (Labels element))
                h elements;
      if decide (length elements = 1) then
        element ← index "elements" elements 0;
        ne ← html.load h (Element element);
        errorNode0 ← index "errorNode" errorNode 0;
        h ← html.InsertBefore (html.Parent ne) errorNode0 (html.NextSibling ne) h;
        Ret (None, h)
      else
        element ← index "elements" elements 0;
        ancestor ← lca fuel h (Element element) (drop 1 elements);
        errorNode0 ← index "errorNode" errorNode 0;
        h ← html.AppendChild ancestor errorNode0 h;
        Ret (None, h)
  end.

(** The text the template of [DefaultIncidentInserter] writes:
    [<ul class="errors">{{ range . }}<li>{{.}}</li>{{end}}</ul>]. *)
Definition default_template {E : External} (errors : list string) : string :=
  "<ul class=" +:+ dq +:+ "errors" +:+ dq +:+ ">"
  +:+ String.concat EmptyString
        (map (fun e => "<li>" +:+ HTMLEscape e +:+ "</li>") errors)
  +:+ "</ul>".

(** [DefaultIncidentInserter]. *)
Definition DefaultIncidentInserter {E : External} : GenericIncidentInserter :=
  {| ErrorClass := "error"; Template := default_template |}.

(** ** Execute *)

(** The labels with a [for] attribute are matched to the inputs of a form
    (the first loop nest in the body of [for _, form := range p.forms]). *)
Definition match_label (h : html.heap) (form : Form.t) (label : html.ptr) : res Form.t :=
  nl ← html.load h label;
  let id := attr.Get (html.Attr nl) "for" in
  foldM (fun form input =>
           ni ← html.load h input;
           if decide (id = attr.Get (html.Attr ni) "id")
           then Ret (Form.set_labels
                       (<[input := slice_at (Form.options form) input ++ [label]]>
                          (Form.labels form)) form)
           else Ret form)
        form (Form.inputs form).

Definition match_labels (h : html.heap) (labels : list html.ptr) (form : Form.t)
    : res Form.t :=
  foldM (match_label h) form labels.

(** The body of [for _, form := range p.forms], for the form under the
    key [formId]. *)
Definition process_form (fuel : nat) (formId : string)
    (s : processor.t * html.heap) : res (option error * (processor.t * html.heap)) :=
  let '(p, h) := s in
  match processor.forms p !! formId with
  | None => Panic NilDereference
  | Some form =>
      form ← match_labels h (processor.labels p) form;
      let p := processor.set_forms (<[formId := form]> (processor.forms p)) p in
      h ← processor.populate fuel p formId h;
      '(err, h) ← processor.insert p formId h;
      Ret (err, (p, h))
  end.

(** [for _, form := range p.forms { ... }], leaving at the first error. *)
Fixpoint process_forms (fuel : nat) (order : list string)
    (s : processor.t * html.heap) : res (option error * (processor.t * html.heap)) :=
  match order with
  | [] => Ret (None, s)
  | formId :: order' =>
      '(err, s) ← process_form fuel formId s;
      match err with
      | Some e => Ret (Some e, s)
      | None => process_forms fuel order' s
      end
  end.

(** The first loop of [Execute]: the map [p.forms], every form entered
    under its identifier with fresh label and option maps.  Each key gets
    the form of its own iteration, which is what [&form] denotes when
    every iteration has its own variable (Go 1.22 on); with a single form,
    as in the tests, earlier versions agree. *)
Definition index_forms (forms : list Form.t) : gmap string Form.t :=
  fold_left (fun m form =>
               <[Form.ID form := Form.set_options ∅ (Form.set_labels ∅ form)]> m)
            forms ∅.

(** [if p.IncidentInsertion == nil
      { p.IncidentInsertion = DefaultIncidentInserter }]. *)
Definition or_default {E : External} (fuel : nat) (fpf : FormPopulationFilter)
    : FormPopulationFilter :=
  match IncidentInsertion fpf with
  | None => mkFormPopulationFilter (Some (Insert fuel DefaultIncidentInserter))
              (IncludeHiddenInputs fpf) (IncludePasswordInputs fpf)
  | Some _ => fpf
  end.

(** The processor as it stands when the traversal starts. *)
Definition new_processor {E : External} (fuel : nat) (fpf : FormPopulationFilter)
    (forms : list Form.t) (document : html.ptr) : processor.t :=
  processor.mk (or_default fuel fpf) (Some document) [] (index_forms forms).

(** The traversal starts outside every form, label and select. *)
Definition context0 : formContext.t := formContext.mk None None None.

(** [FormPopulationFilter.Execute].  [w] is what the writer holds on
    entry and the second component of the result what it holds on return;
    [order] is the sequence in which the [range] over the map [p.forms]
    yields its keys, which Go leaves unspecified. *)
Definition Execute {E : External} (fuel : nat) (order : list string)
    (fpf : FormPopulationFilter) (forms : list Form.t) (w r : string)
    : res (option error * string) :=
  match Parse r with
  | inl err => Ret (Some err, w)
  | inr (document, h) =>
      p ← processor.traverse fuel h document context0
            (new_processor fuel fpf forms document);
      '(err, (p, h)) ← process_forms fuel order (p, h);
      match err with
      | Some e => Ret (Some e, w)
      | None =>
          let '(w, err) := Render h document w in
          Ret (err, w)
      end
  end.

(** ** Reading the document *)

(** [strict_ancestors fuel h n]: the nodes met by following [Parent] from
    [n], nearest first. *)
Fixpoint strict_ancestors (fuel : nat) (h : html.heap) (n : html.ptr) : list html.ptr :=
  match fuel with
  | 0 => []
  | S fuel' =>
      match h !! n with
      | Some nd =>
          match html.Parent nd with
          | Some p => p :: strict_ancestors fuel' h p
          | None => []
          end
      | None => []
      end
  end.

(** [chain h start l]: following [Parent] from [start] visits exactly the
    nodes [l], in this order, and then reaches [nil].  Such a list exists
    only when the walk ends, that is when no node is its own ancestor. *)
Inductive chain (h : html.heap) : option html.ptr → list html.ptr → Prop :=
  | chain_nil : chain h None []
  | chain_cons (q : html.ptr) (nd : html.Node) (l : list html.ptr) :
      h !! q = Some nd → chain h (html.Parent nd) l → chain h (Some q) (q :: l).

(** [ancestry h n l]: [l] lists the strict ancestors of [n], nearest
    first, up to the root of its tree. *)
Definition ancestry (h : html.heap) (n : html.ptr) (l : list html.ptr) : Prop :=
  ∃ nd, h !! n = Some nd ∧ chain h (html.Parent nd) l.

(** The first node of [la] that also occurs in [lb]. *)
Fixpoint first_common (lb la : list html.ptr) : option html.ptr :=
  match la with
  | [] => None
  | x :: la' => if bool_decide (x ∈ lb) then Some x else first_common lb la'
  end.

(** [fragment] immediately follows [reference] among the children of
    [reference]'s parent: the placement called After. *)
Definition placed_after (h : html.heap) (reference fragment : html.ptr) : Prop :=
  ∃ r f,
    h !! reference = Some r ∧ h !! fragment = Some f ∧
    html.NextSibling r = Some fragment ∧
    html.PrevSibling f = Some reference ∧
    html.Parent f = html.Parent r.

(** [fragment] is the last child of [parent]. *)
Definition placed_last_child (h : html.heap) (parent fragment : html.ptr) : Prop :=
  ∃ p f,
    h !! parent = Some p ∧ h !! fragment = Some f ∧
    html.LastChild p = Some fragment ∧
    html.Parent f = Some parent.

(** The sibling links around [e] agree with each other: the node after
    [e] points back to [e], and when there is none [e] is the last child
    of its parent. *)
Definition linked (h : html.heap) (e : html.ptr) : Prop :=
  ∀ nd, h !! e = Some nd →
    match html.NextSibling nd with
    | Some o => ∃ no, h !! o = Some no ∧ html.PrevSibling no = Some e
    | None =>
        ∀ par, html.Parent nd = Some par →
               ∃ np, h !! par = Some np ∧ html.LastChild np = Some e
    end.

(** Two stores with the same nodes up to their attribute lists. *)
Definition same_links (h h' : html.heap) : Prop :=
  length h = length h' ∧
  ∀ p nd, h !! p = Some nd →
    ∃ nd', h' !! p = Some nd' ∧ nd' = html.set_Attr (html.Attr nd') nd.

(** *** The scope of a form, as the specification words it

    A depth-first pre-order walk lists every node with the form element
    that encloses it (the node itself when it is a form element). *)
Fixpoint scope (fuel : nat) (h : html.heap) (n : html.ptr) (enclosing : option html.ptr)
    : res (list (html.ptr * option html.ptr)) :=
  match fuel with
  | 0 => Timeout
  | S fuel' =>
      nd ← html.load h n;
      let enclosing :=
        if bool_decide (html.Type' nd = html.ElementNode ∧ html.Data nd = "form")
        then Some n else enclosing in
      rest ← scope_children fuel' h (html.FirstChild nd) enclosing;
      Ret ((n, enclosing) :: rest)
  end
with scope_children (fuel : nat) (h : html.heap) (c : option html.ptr)
    (enclosing : option html.ptr) : res (list (html.ptr * option html.ptr)) :=
  match c with
  | None => Ret []
  | Some c =>
      match fuel with
      | 0 => Timeout
      | S fuel' =>
          here ← scope fuel' h c enclosing;
          nc ← html.load h c;
          rest ← scope_children fuel' h (html.NextSibling nc) enclosing;
          Ret (here ++ rest)
      end
  end.

(** The identifier of the form a node is attributed to: the value of its
    form-reference attribute, or, when that is absent or empty, the
    identifier of the enclosing form element; [None] when the node has
    neither the attribute nor an enclosing form.  An empty reference
    outside every form names the form with the empty identifier. *)
Definition owner (h : html.heap) (nd : html.Node) (enclosing : option html.ptr)
    : option string :=
  let enclosing_id :=
    match enclosing with
    | Some f => (fun fnd => attr.Get (html.Attr fnd) "id") <$> h !! f
    | None => None
    end in
  match attr.Attribute (html.Attr nd) "form" with
  | Some i =>
      if decide (attr.Val_at (html.Attr nd) i = EmptyString)
      then match enclosing with
           | Some _ => enclosing_id
           | None => Some EmptyString
           end
      else Some (attr.Val_at (html.Attr nd) i)
  | None => enclosing_id
  end.

(** The kinds that qualify as populatable inputs. *)
Definition populatable_kind (nd : html.Node) : bool :=
  bool_decide (html.Data nd = "input" ∨ html.Data nd = "textarea" ∨
               html.Data nd = "progress" ∨ html.Data nd = "meter" ∨
               html.Data nd = "select" ∨
               (html.Data nd = "button" ∧ attr.Get (html.Attr nd) "type" = "submit")).

(** A listed node is a populatable element of the form [formId]. *)
Definition populatable_of (h : html.heap) (formId : string)
    (entry : html.ptr * option html.ptr) : bool :=
  match h !! entry.1 with
  | Some nd =>
      bool_decide (html.Type' nd = html.ElementNode) &&
      bool_decide (attr.Get (html.Attr nd) "name" ≠ EmptyString) &&
      populatable_kind nd &&
      bool_decide (owner h nd entry.2 = Some formId)
  | None => false
  end.

(** The populatable elements of the form [formId] among the listed nodes,
    in the order of the listing. *)
Definition inputs_of (h : html.heap) (formId : string)
    (l : list (html.ptr * option html.ptr)) : list html.ptr :=
  (filter (fun entry => populatable_of h formId entry) l).*1.

(** Between [p] and [p'] every form has gained, at the end of its input
    list, its populatable elements among [l]; no form has come or gone. *)
Definition inputs_extended (h : html.heap) (p p' : processor.t)
    (l : list (html.ptr * option html.ptr)) : Prop :=
  ∀ formId,
    Form.inputs <$> processor.forms p' !! formId =
    (fun form => Form.inputs form ++ inputs_of h formId l) <$> processor.forms p !! formId.

(** ** Documents used in the examples

    Each store is the tree x/net/html builds for the markup quoted with
    it: address 0 is the document node, 1 [html], 2 [head], 3 [body]. *)

Definition element (parent first last prev next : option html.ptr) (data : string)
    (attrs : list html.Attribute) : html.Node :=
  html.mkNode parent first last prev next html.ElementNode data attrs.

Definition page_top (body_first body_last : option html.ptr) : html.heap :=
  [ html.mkNode None (Some 1) (Some 1) None None html.DocumentNode EmptyString [];
    element (Some 0) (Some 2) (Some 3) None None "html" [];
    element (Some 1) None None None (Some 3) "head" [];
    element (Some 1) body_first body_last (Some 2) None "body" [] ].

(** [<form action=/><input ATTRS></form>]: the input is node 5. *)
Definition doc_input (attrs : list html.Attribute) : html.heap :=
  page_top (Some 4) (Some 4) ++
  [ element (Some 3) (Some 5) (Some 5) None None "form" [attribute "action" "/"];
    element (Some 4) None None None None "input" attrs ].

(** [<form><label for=a>x</label><label><input id=a name=a></label></form>]:
    the label with the reference is node 5, the enclosing label node 7,
    the input node 8. *)
Definition doc_labels : html.heap :=
  page_top (Some 4) (Some 4) ++
  [ element (Some 3) (Some 5) (Some 7) None None "form" [];
    element (Some 4) (Some 6) (Some 6) None (Some 7) "label" [attribute "for" "a"];
    html.mkNode (Some 5) None None None None html.TextNode "x" [];
    element (Some 4) (Some 8) (Some 8) (Some 5) None "label" [];
    element (Some 7) None None None None "input"
            [attribute "id" "a"; attribute "name" "a"] ].

(** [<form><div><input name=a><input name=b><input name=c></div></form>]:
    the form is node 4, the div node 5, the inputs nodes 6, 7 and 8. *)
Definition doc_group : html.heap :=
  page_top (Some 4) (Some 4) ++
  [ element (Some 3) (Some 5) (Some 5) None None "form" [];
    element (Some 4) (Some 6) (Some 8) None None "div" [];
    element (Some 5) None None None (Some 7) "input" [attribute "name" "a"];
    element (Some 5) None None (Some 6) (Some 8) "input" [attribute "name" "b"];
    element (Some 5) None None (Some 7) None "input" [attribute "name" "c"] ].

(** The form with the empty identifier, as the tests build it. *)
Definition form_of (values : list (string * list string)) (incidents : list Incident)
    : Form.t :=
  Form.mk EmptyString (list_to_map values) incidents [] ∅ ∅.

(** The processor [Execute] sets up for that one form, with the inserter
    [Insert] and the configuration of [New]. *)
Definition processor_of (Insert : option IncidentInserter) (form : Form.t) : processor.t :=
  processor.mk
    (mkFormPopulationFilter Insert (IncludeHiddenInputs New) (IncludePasswordInputs New))
    (Some 0) [] {[ Form.ID form := form ]}.

(** Scope resolution followed by value population, for one form. *)
Definition resolve_and_populate (h : html.heap) (values : list (string * list string))
    : res html.heap :=
  p ← processor.traverse (2 * length h) h 0 context0
        (processor_of None (form_of values []));
  processor.populate 2 p EmptyString h.

(** The fragment the parser returns for the markup of the default
    template: one detached [ul] element of class [errors]. *)
Definition ul_node : html.Node :=
  element None None None None None "ul" [attribute "class" "errors"].

(** Stand-ins for the external libraries in the examples: the parser
    returns the tree [document]; fragments parse to [ul_node], or fail
    with [fragment_error] when one is given. *)
Definition example_external (document : html.heap) (fragment_error : option error)
    : External :=
  {| Parse := fun _ => inr (0, document);
     ParseFragment := fun _ h =>
       match fragment_error with
       | Some e => inl e
       | None => inr ([length h], h ++ [ul_node])
       end;
     Render := fun _ _ w => (w +:+ "<!DOCTYPE html>", None);
     HTMLEscape := fun s => s |}.

(** The default inserter over the stand-in parser, and a labelable
    element without labels. *)
Definition example_Insert (document : html.heap) (fragment_error : option error)
    : IncidentInserter :=
  Insert (E := example_external document fragment_error) (2 * length document)
         (DefaultIncidentInserter (E := example_external document fragment_error)).

Definition unlabelled (n : html.ptr) : LabelableElement :=
  {| Element := n; Labels := [] |}.

(** [<form action=/><input type=password name=pw></form>] with the form
    as scope resolution leaves it for the values [{pw: [secret]}]. *)
Definition password_doc : html.heap :=
  doc_input [attribute "type" "password"; attribute "name" "pw"].

Definition password_form : Form.t :=
  Form.set_inputs [5] (form_of [("pw", ["secret"])] []).

(** [<form action=/><input type=text name=foo></form>] with a form whose
    only incident names a field the document does not have. *)
Definition text_doc : html.heap :=
  doc_input [attribute "type" "text"; attribute "name" "foo"].

Definition stray_incident : Incident :=
  {| Names := ["absent"]; Errors := ["This field is required."] |}.

Definition stray_form : Form.t :=
  Form.set_inputs [5] (form_of [("foo", ["bar"])] [stray_incident]).

(** The text form, now with an incident on its one field, as the caller
    hands it to [Execute]. *)
Definition failing_incident : Incident :=
  {| Names := ["foo"]; Errors := ["This field is required."] |}.

Definition failing_form : Form.t := form_of [("foo", ["bar"])] [failing_incident].

Definition text_markup : string := "<form action=/><input type=text name=foo></form>".

(** [<form id=f><input name=a form=f><input name=b></form>]: input 5 is
    inside the form (node 4) and also names it in its form attribute,
    input 6 is only inside it. *)
Definition doc_scoped : html.heap :=
  page_top (Some 4) (Some 4) ++
  [ element (Some 3) (Some 5) (Some 6) None None "form" [attribute "id" "f"];
    element (Some 4) None None None (Some 6) "input"
            [attribute "name" "a"; attribute "form" "f"];
    element (Some 4) None None (Some 5) None "input" [attribute "name" "b"] ].

(** The processor at the start of the traversal for the one form [f]. *)
Definition scoped_processor : processor.t :=
  processor.mk New (Some 0) [] {[ "f" := Form.mk "f" ∅ [] [] ∅ ∅ ]}.

(** The pre-order listing of [doc_scoped], each node with the form
    element that encloses it. *)
Definition scoped_listing : list (html.ptr * option html.ptr) :=
  [ (0, None); (1, None); (2, None); (3, None);
    (4, Some 4); (5, Some 4); (6, Some 4) ].

(** [<form><select name=foo><option value=bar></option>
    <option value=foo selected=selected></option></select></form>]: the
    select is node 5, its options nodes 6 and 7. *)
Definition doc_select : html.heap :=
  page_top (Some 4) (Some 4) ++
  [ element (Some 3) (Some 5) (Some 5) None None "form" [];
    element (Some 4) (Some 6) (Some 7) None None "select" [attribute "name" "foo"];
    element (Some 5) None None None (Some 7) "option" [attribute "value" "bar"];
    element (Some 5) None None (Some 6) None "option"
            [attribute "value" "foo"; attribute "selected" "selected"] ].

(** [<form><textarea name=foo>replace</textarea></form>]: the textarea is
    node 5, its text node 6. *)
Definition doc_textarea : html.heap :=
  page_top (Some 4) (Some 4) ++
  [ element (Some 3) (Some 5) (Some 5) None None "form" [];
    element (Some 4) (Some 6) (Some 6) None None "textarea" [attribute "name" "foo"];
    html.mkNode (Some 5) None None None None html.TextNode "replace" [] ].

(** The types for which [populate_default] reaches
    [attributes.Remove("value")]. *)
Definition generic_type (p : processor.t) (typ : string) : Prop :=
  typ ≠ "radio" ∧ typ ≠ "checkbox" ∧ typ ≠ "file" ∧ typ ≠ "image" ∧
  (typ = "password" → IncludePasswordInputs (processor.filter p) = true) ∧
  (typ = "hidden" → IncludeHiddenInputs (processor.filter p) = true).

(** ** Frames *)

(** The node at [e] has the same type, data and attributes in [h'] as in
    [h]: only its links may have changed. *)
Definition content_kept (e : html.ptr) (h h' : html.heap) : Prop :=
  ∀ nd, h !! e = Some nd →
    ∃ nd', h' !! e = Some nd' ∧
      html.Attr nd' = html.Attr nd ∧ html.Data nd' = html.Data nd ∧
      html.Type' nd' = html.Type' nd.

(** A function on nodes that only rewrites links. *)
Definition relinks (f : html.Node → html.Node) : Prop :=
  ∀ nd, html.Attr (f nd) = html.Attr nd ∧ html.Data (f nd) = html.Data nd ∧
        html.Type' (f nd) = html.Type' nd.

(** Every option recorded for the form is an [option] element. *)
Definition options_are_options (h : html.heap) (form : Form.t) : Prop :=
  ∀ sel opts o, Form.options form !! sel = Some opts → o ∈ opts →
    ∃ no, h !! o = Some no ∧ html.Data no = "option".

(** No input of the form carries a name the incident lists. *)
Definition unmatched (h : html.heap) (form : Form.t) (incident : Incident) : Prop :=
  ∀ input, input ∈ Form.inputs form →
    ∃ nd, h !! input = Some nd ∧ attr.Get (html.Attr nd) "name" ∉ Names incident.


(** ** Attributes before the last *)

(** Some attribute other than the last one has the key [name]. *)
Definition matched_before_last (attrs : list html.Attribute) (name : string) : Prop :=
  Exists (fun a => html.Key a = name) (take (length attrs - 1) attrs).

(** ** Inputs an incident concerns *)

(** The input at [input] carries one of the names [names]. *)
Definition named_in (h : html.heap) (names : list string) (input : html.ptr) : Prop :=
  match h !! input with
  | Some nd => attr.Get (html.Attr nd) "name" ∈ names
  | None => False
  end.

#[global] Instance named_in_dec (h : html.heap) (names : list string) (input : html.ptr) :
  Decision (named_in h names input).
Proof. unfold named_in. destruct (h !! input); apply _. Defined.

(** The labelable element [insert] builds for an input. *)
Definition labelable (form : Form.t) (input : html.ptr) : LabelableElement :=
  {| Element := input; Labels := slice_at (Form.labels form) input |}.

(** The name the input at [input] carries. *)
Definition name_of (h : html.heap) (input : html.ptr) : string :=
  match h !! input with
  | Some nd => attr.Get (html.Attr nd) "name"
  | None => EmptyString
  end.

(** How many times [name] is listed in [names]. *)
Definition times_listed (name : string) (names : list string) : nat :=
  length (filter (fun listed => name = listed) names).

(** ** What the traversal records *)

(** Between [p] and [p'] the configuration, the document and the
    identifier, values and incidents of every form are the same, no form
    has come or gone, and the deferred labels and the inputs of each form
    have at most grown at their end. *)
Definition request_kept (p p' : processor.t) : Prop :=
  processor.filter p' = processor.filter p ∧
  processor.document p' = processor.document p ∧
  processor.labels p `prefix_of` processor.labels p' ∧
  ∀ formId,
    match processor.forms p !! formId, processor.forms p' !! formId with
    | Some form, Some form' =>
        Form.ID form' = Form.ID form ∧ Form.Values form' = Form.Values form ∧
        Form.Incidents form' = Form.Incidents form ∧
        Form.inputs form `prefix_of` Form.inputs form'
    | None, None => True
    | _, _ => False
    end.

(** The node at [n] is an element with the tag [data]. *)
Definition tagged (h : html.heap) (data : string) (n : html.ptr) : Prop :=
  ∃ nd, h !! n = Some nd ∧ html.Type' nd = html.ElementNode ∧ html.Data nd = data.

(** The node at [n] is a [label] element that carries a [for] attribute. *)
Definition deferred_label (h : html.heap) (n : html.ptr) : Prop :=
  ∃ nd, h !! n = Some nd ∧ html.Type' nd = html.ElementNode ∧
        html.Data nd = "label" ∧ attr.Has (html.Attr nd) "for" = true.

(** The label and the select of a context are elements of those tags. *)
Definition context_tagged (h : html.heap) (context : formContext.t) : Prop :=
  (∀ l, formContext.Label context = Some l → tagged h "label" l) ∧
  (∀ s, formContext.Select context = Some s → tagged h "select" s).

(** What the processor holds is of the right kind: the deferred labels
    are [label] elements with a [for] attribute, the options of a form are
    [option] elements kept under a [select] element, and the labels of an
    input are [label] elements. *)
Definition well_recorded (h : html.heap) (p : processor.t) : Prop :=
  Forall (deferred_label h) (processor.labels p) ∧
  ∀ formId form, processor.forms p !! formId = Some form →
    (∀ sel opts, Form.options form !! sel = Some opts →
       tagged h "select" sel ∧ Forall (tagged h "option") opts) ∧
    (∀ input ls, Form.labels form !! input = Some ls → Forall (tagged h "label") ls).

(** The tree of a form (node 4) that holds, without any text between
    them, a select named foo (5) with one option (6), a label with a
    [for] attribute (7) around an input named bar (8), and a label
    without one (9) around an input named baz (10). *)
Definition doc_recorded : html.heap :=
  page_top (Some 4) (Some 4) ++
  [ element (Some 3) (Some 5) (Some 9) None None "form" [];
    element (Some 4) (Some 6) (Some 6) None (Some 7) "select" [attribute "name" "foo"];
    element (Some 5) None None None None "option" [attribute "value" "foo"];
    element (Some 4) (Some 8) (Some 8) (Some 5) (Some 9) "label" [attribute "for" "x"];
    element (Some 7) None None None None "input" [attribute "name" "bar"];
    element (Some 4) (Some 10) (Some 10) (Some 7) None "label" [];
    element (Some 9) None None None None "input" [attribute "name" "baz"] ].

(** A request for a form the text document does not have: its values and
    its incident name the field of the form that is there. *)
Definition absent_form : Form.t :=
  Form.mk "signup" (list_to_map [("foo", ["bar"])]) [failing_incident] [] ∅ ∅.

(** Stand-ins for the libraries where a fragment has no node, which is
    what the parser returns for markup without any. *)
Definition empty_fragment_external (document : html.heap) : External :=
  {| Parse := fun _ => inr (0, document);
     ParseFragment := fun _ h => inr ([], h);
     Render := fun _ _ w => (w, None);
     HTMLEscape := fun s => s |}.

(** * Properties *)

(** ** The outcome monad *)

Lemma bind_Ret {A B : Type} (m : res A) (k : A → res B) (b : B) :
  m ≫= k = Ret b → ∃ a, m = Ret a ∧ k a = Ret b.
Proof. destruct m as [a| |]; simpl; [eauto | discriminate | discriminate]. Qed.

Lemma bind_Ret_l {A B : Type} (a : A) (k : A → res B) : Ret a ≫= k = k a.
Proof. reflexivity. Qed.

(** Splits a hypothesis [x ← m; k x = Ret b] into its two runs. *)
Ltac res_inv H :=
  let a := fresh "a" in
  let Ha := fresh "Hrun" in
  apply bind_Ret in H; destruct H as (a & Ha & H).

Lemma foldM_app {A S : Type} (f : S → A → res S) (s : S) (l1 l2 : list A) :
  foldM f s (l1 ++ l2) = foldM f s l1 ≫= fun s' => foldM f s' l2.
Proof.
  revert s. induction l1 as [|a l1 IH]; intros s; simpl; [reflexivity|].
  destruct (f s a) as [s'| |]; simpl; [apply IH | reflexivity | reflexivity].
Qed.

(** A property kept by every step of a loop is kept by the loop. *)
Lemma foldM_invariant {A S : Type} (P : S → Prop) (f : S → A → res S) (l : list A) :
  (∀ s a s', a ∈ l → P s → f s a = Ret s' → P s') →
  ∀ s s', P s → foldM f s l = Ret s' → P s'.
Proof.
  induction l as [|a l IH]; intros Hstep s s' Hs Hrun; simpl in Hrun.
  - congruence.
  - res_inv Hrun. eapply IH; [| |exact Hrun].
    + intros. eapply Hstep; eauto. by right.
    + eapply Hstep; eauto. by left.
Qed.

(** ** Loads and stores *)

Lemma load_Ret (h : html.heap) (p : html.ptr) (nd : html.Node) :
  html.load h p = Ret nd ↔ h !! p = Some nd.
Proof. unfold html.load. destruct (h !! p); split; congruence. Qed.

Lemma store_Ret (h h' : html.heap) (p : html.ptr) (f : html.Node → html.Node) :
  html.store h p f = Ret h' → ∃ nd, h !! p = Some nd ∧ h' = <[p := f nd]> h.
Proof. unfold html.store. destruct (h !! p) as [nd|]; [|discriminate]. intros [= <-]. eauto. Qed.

Lemma store_lookup_eq (h h' : html.heap) (p : html.ptr) (f : html.Node → html.Node) :
  html.store h p f = Ret h' → ∃ nd, h !! p = Some nd ∧ h' !! p = Some (f nd).
Proof.
  intros (nd & Hp & ->)%store_Ret. exists nd. split; [done|].
  apply list_lookup_insert_eq. by eapply lookup_lt_Some.
Qed.

Lemma store_lookup_ne (h h' : html.heap) (p q : html.ptr) (f : html.Node → html.Node) :
  html.store h p f = Ret h' → p ≠ q → h' !! q = h !! q.
Proof. intros (nd & Hp & ->)%store_Ret Hne. by apply list_lookup_insert_ne. Qed.

Lemma store_length (h h' : html.heap) (p : html.ptr) (f : html.Node → html.Node) :
  html.store h p f = Ret h' → length h' = length h.
Proof. intros (nd & Hp & ->)%store_Ret. apply length_insert. Qed.

(** ** attr.Remove *)

(** Once the local slice is shorter than an index still to come, the loop
    cannot return: it panics at that index at the latest. *)
Lemma Remove_loop_short (name : string) (idx : list nat) (arr : list html.Attribute)
    (len j : nat) :
  j ∈ idx → len ≤ j → ∀ r, attr.Remove_loop name idx arr len ≠ Ret r.
Proof.
  revert arr len. induction idx as [|i idx IH]; intros arr len Hj Hlen r.
  - by apply elem_of_nil in Hj.
  - simpl. destruct (decide (i < len)) as [Hi|Hi]; [|discriminate].
    assert (j ∈ idx) as Hj'.
    { apply elem_of_cons in Hj as [->|]; [lia|done]. }
    destruct (arr !! i) as [a|]; [|discriminate].
    destruct (decide (html.Key a = name)).
    + apply IH; [done | lia].
    + by apply IH.
Qed.

Lemma shift_down_last (arr : list html.Attribute) :
  attr.shift_down arr (length arr - 1) (length arr) = arr.
Proof.
  unfold attr.shift_down. rewrite firstn_all.
  destruct (decide (length arr = 0)) as [H0|H0].
  - apply nil_length_inv in H0. by subst.
  - replace (S (length arr - 1)) with (length arr) by lia.
    rewrite drop_all. simpl. apply take_drop.
Qed.

Lemma Remove_loop_Ret (name : string) (arr : list html.Attribute) (k : nat) :
  ∀ r, attr.Remove_loop name (seq k (length arr - k)) arr (length arr) = Ret r → r = arr.
Proof.
  remember (length arr - k) as m eqn:Hm. revert k Hm.
  induction m as [|m IH]; intros k Hm r; simpl.
  - congruence.
  - destruct (decide (k < length arr)) as [Hk|Hk]; [|discriminate].
    destruct (arr !! k) as [a|]; [|discriminate].
    destruct (decide (html.Key a = name)) as [Heq|Hne].
    + destruct m as [|m].
      * simpl. intros [= <-]. replace k with (length arr - 1) by lia.
        apply shift_down_last.
      * intros Hr. exfalso.
        eapply (Remove_loop_short name _ _ _ (length arr - 1)); [| |exact Hr].
        -- apply elem_of_seq. lia.
        -- lia.
    + apply IH. lia.
Qed.

(** Whenever [Remove] returns, the caller's attributes are what they were
    before the call: nothing is ever removed. *)
Lemma Remove_Ret (attrs : list html.Attribute) (name : string) (r : list html.Attribute) :
  attr.Remove attrs name = Ret r → r = attrs.
Proof.
  unfold attr.Remove. intros H. apply (Remove_loop_Ret name attrs 0).
  by rewrite Nat.sub_0_r.
Qed.

Lemma Remove_loop_absent (name : string) (arr : list html.Attribute) (k : nat) :
  (∀ i a, arr !! i = Some a → S i < length arr → html.Key a ≠ name) →
  attr.Remove_loop name (seq k (length arr - k)) arr (length arr) = Ret arr.
Proof.
  intros Habs. remember (length arr - k) as m eqn:Hm. revert k Hm.
  induction m as [|m IH]; intros k Hm; simpl; [done|].
  destruct (decide (k < length arr)) as [Hk|Hk]; [|lia].
  destruct (lookup_lt_is_Some_2 arr k Hk) as [a Ha]. rewrite Ha.
  destruct (decide (html.Key a = name)) as [Heq|Hne].
  - destruct m as [|m].
    + simpl. replace k with (length arr - 1) by lia. by rewrite shift_down_last.
    + exfalso. eapply Habs; [exact Ha | lia | done].
  - apply IH. lia.
Qed.

(** [Remove] returns exactly when no attribute before the last one has
    the key. *)
Lemma Remove_absent (attrs : list html.Attribute) (name : string) :
  (∀ i a, attrs !! i = Some a → S i < length attrs → html.Key a ≠ name) →
  attr.Remove attrs name = Ret attrs.
Proof.
  intros H. unfold attr.Remove.
  rewrite <- (Nat.sub_0_r (length attrs)) at 1. by apply Remove_loop_absent.
Qed.

(** ** Value population: the rule for the value attribute *)

Lemma populate_default_generic (p : processor.t) (params : list string)
    (input : html.ptr) (attributes : list html.Attribute) (h : html.heap) :
  generic_type p (attr.Get attributes "type") →
  processor.populate_default p params input attributes h =
    (attributes ← attr.Remove attributes "value";
     h ← html.store h input (html.set_Attr attributes);
     param ← index "params" params 0;
     processor.append_attr h input (attribute "value" param)).
Proof.
  intros (Hr & Hc & Hf & Hi & Hp & Hh). unfold processor.populate_default.
  destruct (decide _) as [[?|?]|_]; [done..|].
  destruct (decide _) as [[?|?]|_]; [done..|].
  destruct (bool_decide (attr.Get attributes "type" = "password")) eqn:E1.
  { apply bool_decide_eq_true in E1. rewrite (Hp E1). simpl.
    destruct (bool_decide (attr.Get attributes "type" = "hidden")) eqn:E2.
    - apply bool_decide_eq_true in E2. congruence.
    - reflexivity. }
  simpl.
  destruct (bool_decide (attr.Get attributes "type" = "hidden")) eqn:E2.
  { apply bool_decide_eq_true in E2. rewrite (Hh E2). reflexivity. }
  reflexivity.
Qed.

(** Whenever the value rule runs to its end, every attribute the element
    had is still there, an existing [value] included, and a [value]
    attribute holding the first supplied value has been appended. *)
Lemma populate_default_generic_Ret (p : processor.t) (params : list string)
    (input : html.ptr) (nd : html.Node) (h h' : html.heap) :
  h !! input = Some nd →
  generic_type p (attr.Get (html.Attr nd) "type") →
  processor.populate_default p params input (html.Attr nd) h = Ret h' →
  ∃ param, params !! 0 = Some param ∧
    h' = <[input := html.set_Attr (html.Attr nd ++ [attribute "value" param]) nd]> h.
Proof.
  intros Hin Hty. rewrite populate_default_generic by done. intros H.
  res_inv H. apply Remove_Ret in Hrun. subst a.
  res_inv H. apply store_Ret in Hrun as (nd' & Hnd' & ->).
  assert (nd' = nd) as -> by congruence.
  res_inv H. unfold index in Hrun. destruct (params !! 0) as [param|] eqn:Hp; [|discriminate].
  injection Hrun as <-. exists param. split; [done|].
  unfold processor.append_attr in H. apply store_Ret in H as (nd2 & Hnd2 & ->).
  rewrite list_lookup_insert_eq in Hnd2 by (by eapply lookup_lt_Some).
  injection Hnd2 as <-. rewrite list_insert_insert_eq. by destruct nd.
Qed.

(** The scenario of the tests: [<input type=text name=foo>] with
    [{foo: [bar]}] gets [value=bar] appended. *)
Lemma populate_text_scenario :
  (h ← resolve_and_populate
         (doc_input [attribute "type" "text"; attribute "name" "foo"])
         [("foo", ["bar"])];
   Ret (html.Attr <$> h !! 5))
  = Ret (Some [attribute "type" "text"; attribute "name" "foo";
               attribute "value" "bar"]).
Proof. vm_compute. reflexivity. Qed.

(** C1 (evaluation at the failing input).  For
    [<input type=text name=foo value=old>] and the values [{foo: [bar]}]
    population returns, and the element then carries both the old
    [value=old] and a new [value=bar]: the existing value attribute has
    not been removed, and reading the value attribute still gives [old]. *)
Theorem populate_keeps_existing_value :
  (h ← resolve_and_populate
         (doc_input [attribute "type" "text"; attribute "name" "foo";
                     attribute "value" "old"])
         [("foo", ["bar"])];
   Ret ((fun nd => (html.Attr nd, attr.Get (html.Attr nd) "value")) <$> h !! 5))
  = Ret (Some ([attribute "type" "text"; attribute "name" "foo";
                attribute "value" "old"; attribute "value" "bar"], "old")).
Proof. vm_compute. reflexivity. Qed.

(** C2 (evaluation at the failing input).  Population is run on
    [<input type=text name=foo>] with [{foo: [bar]}], and then once more,
    scope resolution included, on the populated document with the same
    values and configuration: the second run appends a second
    [value=bar], so its output differs from that of the first run. *)
Theorem populate_twice_differs :
  ∃ h1 h2,
    resolve_and_populate
      (doc_input [attribute "type" "text"; attribute "name" "foo"])
      [("foo", ["bar"])] = Ret h1 ∧
    resolve_and_populate h1 [("foo", ["bar"])] = Ret h2 ∧
    html.Attr <$> h1 !! 5 =
      Some [attribute "type" "text"; attribute "name" "foo"; attribute "value" "bar"] ∧
    html.Attr <$> h2 !! 5 =
      Some [attribute "type" "text"; attribute "name" "foo"; attribute "value" "bar";
            attribute "value" "bar"] ∧
    h2 ≠ h1.
Proof.
  eexists _, _. split; [vm_compute; reflexivity|].
  split; [vm_compute; reflexivity|].
  split; [vm_compute; reflexivity|].
  split; [vm_compute; reflexivity|].
  intros H. apply (f_equal (fun h => length <$> (html.Attr <$> h !! 5))) in H.
  vm_compute in H. discriminate.
Qed.

(** C10 (evaluation at the failing input).  Every value sequence is
    non-empty, yet population of
    [<input value=old type=text name=foo>] with [{foo: [bar]}] performs
    an out-of-bounds access: [attrs[2]] in [Remove], on a slice that has
    been cut to length 2. *)
Theorem populate_out_of_range :
  (∀ name params,
     (list_to_map [("foo", ["bar"])] : gmap string (list string)) !! name = Some params →
     params ≠ []) ∧
  resolve_and_populate
    (doc_input [attribute "value" "old"; attribute "type" "text";
                attribute "name" "foo"])
    [("foo", ["bar"])]
  = Panic (IndexOutOfRange "attrs" 2 2).
Proof.
  split; [|vm_compute; reflexivity].
  intros name params. simpl.
  destruct (decide (name = "foo")) as [->|Hne].
  - rewrite lookup_insert_eq. by intros [= <-].
  - rewrite lookup_insert_ne by done. by rewrite lookup_empty.
Qed.

(** ** Matching labels by identifier *)

(** C3 (evaluation at the failing input).  In
    [<form><label for=a>x</label><label><input id=a name=a></label></form>]
    scope resolution links the input (node 8) to the label that encloses
    it (node 7) and defers the label with the reference (node 5).
    Matching the deferred label then leaves the input with the label
    list [[5]]: the label found by nesting has been replaced, not kept in
    front of the matched one. *)
Theorem match_labels_drops_nested :
  ∃ p form form',
    processor.traverse 18 doc_labels 0 context0 (processor_of None (form_of [] []))
      = Ret p ∧
    processor.labels p = [5] ∧
    processor.forms p !! EmptyString = Some form ∧
    Form.inputs form = [8] ∧
    Form.labels form !! 8 = Some [7] ∧
    match_labels doc_labels (processor.labels p) form = Ret form' ∧
    Form.labels form' !! 8 = Some [5].
Proof.
  eexists _, _, _.
  split; [vm_compute; reflexivity|].
  split; [vm_compute; reflexivity|].
  split; [vm_compute; reflexivity|].
  split; [vm_compute; reflexivity|].
  split; [vm_compute; reflexivity|].
  split; [vm_compute; reflexivity|].
  vm_compute; reflexivity.
Qed.

(** ** The common ancestor of a group *)

(** C4 (evaluation at the failing input).  For the three inputs of
    [<form><div><input name=a><input name=b><input name=c></div></form>]
    the computation returns the form (node 4), although the div (node 5)
    is a strict ancestor of all three inputs and lies below the form. *)
Theorem lca_three_siblings :
  lca 18 doc_group 6 [unlabelled 7; unlabelled 8] = Ret 4 ∧
  (∀ e, e ∈ [6; 7; 8] → 5 ∈ strict_ancestors 18 doc_group e) ∧
  4 ∈ strict_ancestors 18 doc_group 5.
Proof.
  split; [vm_compute; reflexivity|]. split.
  - intros e He. repeat (apply elem_of_cons in He as [->|He]);
      [vm_compute; left.. | by apply elem_of_nil in He].
  - vm_compute. left.
Qed.

(** ** Placement of the rendered fragment *)

Lemma store_lookup (h h' : html.heap) (p q : html.ptr) (f : html.Node → html.Node) :
  html.store h p f = Ret h' →
  h' !! q = if decide (p = q) then f <$> h !! q else h !! q.
Proof.
  intros Hs. destruct (decide (p = q)) as [<-|Hne].
  - destruct (store_lookup_eq _ _ _ _ Hs) as (nd & -> & ->). done.
  - by eapply store_lookup_ne.
Qed.

Lemma same_links_refl (h : html.heap) : same_links h h.
Proof. split; [done|]. intros p nd Hp. exists nd. split; [done|]. by destruct nd. Qed.

Lemma same_links_trans (h1 h2 h3 : html.heap) :
  same_links h1 h2 → same_links h2 h3 → same_links h1 h3.
Proof.
  intros [Hl1 H1] [Hl2 H2]. split; [congruence|].
  intros p nd Hp. destruct (H1 p nd Hp) as (nd2 & Hp2 & E2).
  destruct (H2 p nd2 Hp2) as (nd3 & Hp3 & E3).
  exists nd3. split; [done|]. rewrite E3, E2. by destruct nd.
Qed.

Lemma same_links_insert_Attr (h : html.heap) (p : html.ptr) (nd : html.Node)
    (v : list html.Attribute) :
  h !! p = Some nd → same_links h (<[p := html.set_Attr v nd]> h).
Proof.
  intros Hp. split; [by rewrite length_insert|].
  intros q nq Hq. destruct (decide (p = q)) as [->|Hne].
  - rewrite list_lookup_insert_eq by (by eapply lookup_lt_Some).
    assert (nq = nd) as -> by congruence. eexists. split; [done|]. by destruct nd.
  - rewrite list_lookup_insert_ne by done. exists nq. split; [done|]. by destruct nq.
Qed.

Lemma addErrorClass_same_links (i : GenericIncidentInserter) (h h' : html.heap)
    (node : html.ptr) :
  addErrorClass i h node = Ret h' → same_links h h'.
Proof.
  unfold addErrorClass. intros H. res_inv H. apply load_Ret in Hrun.
  destruct (attr.Attribute (html.Attr a) "class");
    apply store_Ret in H as (nd & Hnd & ->);
    by apply same_links_insert_Attr.
Qed.

(** Marking the elements and their labels leaves every link as it was. *)
Lemma marking_same_links (i : GenericIncidentInserter) (elements : list LabelableElement)
    (h h' : html.heap) :
  foldM (fun h element =>
           h ← addErrorClass i h (Element element);
           foldM (addErrorClass i) h (Labels element)) h elements = Ret h' →
  same_links h h'.
Proof.
  intros H. revert H. apply (foldM_invariant (same_links h)); [|apply same_links_refl].
  intros s a s' _ Hs Hstep. res_inv Hstep.
  apply addErrorClass_same_links in Hrun.
  eapply same_links_trans; [exact Hs|]. eapply same_links_trans; [exact Hrun|].
  revert Hstep. apply (foldM_invariant (same_links a0)); [|apply same_links_refl].
  intros s1 l s2 _ Hs1 Hl. apply addErrorClass_same_links in Hl.
  by eapply same_links_trans.
Qed.

Lemma same_links_load (h h' : html.heap) (p : html.ptr) :
  same_links h h' →
  match html.load h p with
  | Ret nd => ∃ nd', html.load h' p = Ret nd' ∧ nd' = html.set_Attr (html.Attr nd') nd
  | r => html.load h' p = r
  end.
Proof.
  intros [Hlen Hl]. unfold html.load. destruct (h !! p) as [nd|] eqn:Hp.
  - destruct (Hl p nd Hp) as (nd' & -> & E). eauto.
  - apply lookup_ge_None in Hp. rewrite Hlen in Hp.
    apply lookup_ge_None in Hp. by rewrite Hp.
Qed.

Lemma set_Attr_links (nd nd' : html.Node) (v : list html.Attribute) :
  nd' = html.set_Attr v nd →
  html.Parent nd' = html.Parent nd ∧
  html.FirstChild nd' = html.FirstChild nd ∧
  html.LastChild nd' = html.LastChild nd ∧
  html.PrevSibling nd' = html.PrevSibling nd ∧
  html.NextSibling nd' = html.NextSibling nd.
Proof. by intros ->. Qed.

(** Case analysis on a load, carried over to a store with the same links. *)
Ltac load_same Hs h p :=
  let HL := fresh "HL" in
  let nd := fresh "nd" in
  let nd' := fresh "nd'" in
  let E := fresh "E" in
  pose proof (same_links_load h _ p Hs) as HL;
  destruct (html.load h p) as [nd| |];
  [destruct HL as (nd' & -> & E); apply set_Attr_links in E;
   destruct E as (? & ? & ? & ? & ?)
  | rewrite HL; try reflexivity
  | rewrite HL; try reflexivity ];
  simpl.

Lemma meets_same_links (fuel : nat) (h h' : html.heap) (ap : html.ptr)
    (bp : option html.ptr) :
  same_links h h' → meets fuel h' ap bp = meets fuel h ap bp.
Proof.
  intros Hs. revert bp. induction fuel as [|fuel IH]; intros [bp|]; simpl; try done.
  destruct (decide (ap = bp)); [done|].
  load_same Hs h bp. rewrite IH. congruence.
Qed.

Lemma first_shared_Some (fuel : nat) (h : html.heap) (ap : html.ptr) (b : html.Node) :
  first_shared fuel h (Some ap) b =
    (found ← meets fuel h ap (html.Parent b);
     if found : bool then Ret (Some ap) else
     match fuel with
     | 0 => Timeout
     | S fuel' => na ← html.load h ap; first_shared fuel' h (html.Parent na) b
     end).
Proof. by destruct fuel. Qed.

Lemma first_shared_same_links (fuel : nat) (h h' : html.heap) (ap : option html.ptr)
    (b b' : html.Node) :
  same_links h h' → html.Parent b' = html.Parent b →
  first_shared fuel h' ap b' = first_shared fuel h ap b.
Proof.
  intros Hs Hb. revert ap. induction fuel as [|fuel IH]; intros [ap|];
    try reflexivity; rewrite !first_shared_Some, Hb, (meets_same_links _ h h') by done.
  - done.
  - destruct (meets (S fuel) h ap (html.Parent b)) as [[|]| |]; try done.
    rewrite !bind_Ret_l. cbv iota.
    load_same Hs h ap. rewrite IH. congruence.
Qed.

(** [lca] only follows [Parent] links. *)
Lemma lca_same_links (fuel : nat) (h h' : html.heap) (a : html.ptr)
    (next : list LabelableElement) :
  same_links h h' → lca fuel h' a next = lca fuel h a next.
Proof.
  intros Hs. revert a. induction next as [|next0 next IH]; intros a; simpl; [done|].
  load_same Hs h a. load_same Hs h (Element next0).
  rewrite (first_shared_same_links fuel h h' _ nd0 nd'0) by done.
  replace (html.Parent nd') with (html.Parent nd) by done.
  destruct (first_shared fuel h (html.Parent nd) nd0) as [[ap|]| |]; simpl; try done.
  destruct (decide _); [apply IH|done].
Qed.

Lemma linked_same_links (h h' : html.heap) (e : html.ptr) :
  same_links h h' → linked h e → linked h' e.
Proof.
  intros Hs Hl nd' He'.
  pose proof (same_links_load h h' e Hs) as HL. unfold html.load in HL.
  rewrite He' in HL. destruct (h !! e) as [nd|] eqn:He; [|discriminate].
  destruct HL as (nd2 & [= <-] & E). apply set_Attr_links in E.
  destruct E as (EP & _ & _ & _ & EN). rewrite EN, EP.
  specialize (Hl nd He). destruct Hs as [_ Hs].
  destruct (html.NextSibling nd) as [o|].
  - destruct Hl as (no & Ho & Hprev). destruct (Hs o no Ho) as (no' & Ho' & E').
    apply set_Attr_links in E' as (_ & _ & _ & EPrev & _). exists no'.
    split; [done|]. congruence.
  - intros par Hpar. destruct (Hl par Hpar) as (np & Hp & Hlast).
    destruct (Hs par np Hp) as (np' & Hp' & E').
    apply set_Attr_links in E' as (_ & _ & ELast & _ & _). exists np'.
    split; [done|]. congruence.
Qed.

Tactic Notation "res_inv" hyp(H) "as" ident(a) ident(Ha) :=
  apply bind_Ret in H; destruct H as (a & Ha & H).

(** A store keeps a property of the node at [q] when it writes elsewhere
    or when the written field does not matter to the property. *)
Lemma store_preserves (P : html.Node → Prop) (h h' : html.heap) (p q : html.ptr)
    (f : html.Node → html.Node) :
  html.store h p f = Ret h' →
  (∀ nd, P nd → P (f nd)) ∨ p ≠ q →
  (∃ nd, h !! q = Some nd ∧ P nd) → ∃ nd, h' !! q = Some nd ∧ P nd.
Proof.
  intros Hs Hf (nd & Hq & HP). rewrite (store_lookup _ _ _ q _ Hs).
  destruct (decide (p = q)) as [->|Hne].
  - destruct Hf as [Hf|Hf]; [|done]. rewrite Hq. simpl. eauto.
  - eauto.
Qed.

Lemma store_establishes (P : html.Node → Prop) (h h' : html.heap) (p : html.ptr)
    (f : html.Node → html.Node) :
  html.store h p f = Ret h' → (∀ nd, h !! p = Some nd → P (f nd)) →
  ∃ nd, h' !! p = Some nd ∧ P nd.
Proof. intros Hs HP. destruct (store_lookup_eq _ _ _ _ Hs) as (nd & Hp & Hp'). eauto. Qed.

Lemma attached_false (c : html.Node) :
  html.attached c = false →
  html.Parent c = None ∧ html.PrevSibling c = None ∧ html.NextSibling c = None.
Proof.
  unfold html.attached. intros H%bool_decide_eq_false.
  destruct (html.Parent c), (html.PrevSibling c), (html.NextSibling c);
    try (exfalso; apply H; naive_solver); done.
Qed.

(** [n.AppendChild(c)] makes [c] the last child of [n]. *)
Lemma AppendChild_last (n c : html.ptr) (h h' : html.heap) :
  html.AppendChild n c h = Ret h' → placed_last_child h' n c.
Proof.
  unfold html.AppendChild. intros H.
  res_inv H as nc Hc. destruct (html.attached nc); [discriminate|].
  res_inv H as nn Hn. res_inv H as h1 H1. res_inv H as h2 H2. res_inv H as h3 H3.
  assert (∃ nd, h' !! n = Some nd ∧ html.LastChild nd = Some c) as (p & Hp & Hlast).
  { eapply store_preserves; [exact H | by left |].
    eapply store_preserves; [exact H3 | by left |].
    eapply store_establishes; [exact H2 | done]. }
  assert (∃ nd, h' !! c = Some nd ∧ html.Parent nd = Some n) as (f & Hf & Hpar).
  { eapply store_preserves; [exact H | by left |].
    eapply store_establishes; [exact H3 | done]. }
  exists p, f. done.
Qed.

(** [e.Parent.InsertBefore(c, e.NextSibling)] puts [c] right after [e]. *)
Lemma InsertBefore_after (h h' : html.heap) (e c : html.ptr) (ne : html.Node) :
  h !! e = Some ne → linked h e →
  html.InsertBefore (html.Parent ne) c (html.NextSibling ne) h = Ret h' →
  placed_after h' e c.
Proof.
  intros He Hl H. specialize (Hl ne He). unfold html.InsertBefore in H.
  res_inv H as nc Hc. apply load_Ret in Hc.
  destruct (html.attached nc) eqn:Hatt; [discriminate|].
  apply attached_false in Hatt as (HcP & HcPrev & HcNext).
  res_inv H as pn Hpn.
  assert (pn.1 = Some e ∧ pn.2 = html.NextSibling ne ∧ e ≠ c) as (Hprev & Hnext & Hec).
  { destruct (html.NextSibling ne) as [o|] eqn:Hn.
    - destruct Hl as (no & Ho & Hp). unfold html.load in Hpn. rewrite Ho in Hpn.
      injection Hpn as <-. repeat split; [done|]. intros ->. congruence.
    - destruct (html.Parent ne) as [par|] eqn:Hpar; [|discriminate].
      destruct (Hl par eq_refl) as (np & Hp & Hlast).
      simpl in Hpn. unfold html.load in Hpn. rewrite Hp in Hpn.
      injection Hpn as <-. repeat split; [done|]. intros ->. congruence. }
  destruct pn as [prev next]. simpl in Hprev, Hnext. subst prev next.
  res_inv H as h1 H1. res_inv H as h2 H2. res_inv H as h3 H3. res_inv H as h4 H4.
  assert (∃ nd, h' !! e = Some nd ∧
            (html.NextSibling nd = Some c ∧ html.Parent nd = html.Parent ne))
    as (r & Hr & HrN & HrP).
  { eapply store_preserves; [exact H | by right |].
    eapply store_preserves; [exact H4 | by right |].
    eapply store_preserves; [exact H3 | by right |].
    assert (∃ nd, h1 !! e = Some nd ∧
              (html.NextSibling nd = Some c ∧ html.Parent nd = html.Parent ne)) as Hh1.
    { eapply store_establishes; [exact H1|]. intros nd Hnd.
      assert (nd = ne) as -> by congruence. done. }
    destruct (html.NextSibling ne) as [o|].
    - eapply store_preserves; [exact H2 | by left | exact Hh1].
    - destruct (html.Parent ne) as [par|]; [|discriminate].
      eapply store_preserves; [exact H2 | by left | exact Hh1]. }
  assert (∃ nd, h' !! c = Some nd ∧
            (html.PrevSibling nd = Some e ∧ html.Parent nd = html.Parent ne))
    as (f & Hf & HfPrev & HfP).
  { eapply store_preserves; [exact H | by left |].
    eapply store_establishes; [exact H4|]. intros nd Hnd. split; [done|].
    destruct (store_lookup_eq _ _ _ _ H3) as (nd3 & _ & Hnd3).
    assert (nd = html.set_Parent (html.Parent ne) nd3) as -> by congruence. done. }
  exists r, f. repeat split; congruence.
Qed.

(** Where [Insert] puts the first node of the parsed fragment, for any
    inserter of the generic kind. *)
Lemma Insert_placement {E : External} (fuel : nat) (i : GenericIncidentInserter)
    (elements : list LabelableElement) (errors : list string)
    (h h1 h' : html.heap) (c : html.ptr) (rest : list html.ptr) :
  ParseFragment (Template i errors) h = inr (c :: rest, h1) →
  Insert fuel i elements errors h = Ret (None, h') →
  (∀ e, elements = [e] → linked h1 (Element e) → placed_after h' (Element e) c) ∧
  (length elements ≠ 1 →
     ∃ e0 ancestor,
       elements !! 0 = Some e0 ∧
       lca fuel h1 (Element e0) (drop 1 elements) = Ret ancestor ∧
       placed_last_child h' ancestor c).
Proof.
  intros Hparse H. unfold Insert in H. rewrite Hparse in H.
  res_inv H as hm Hm. apply marking_same_links in Hm.
  destruct (decide (length elements = 1)) as [Hlen|Hlen].
  - split; [|done]. intros e -> Hl. simpl in H.
    res_inv H as ne Hne. apply load_Ret in Hne.
    res_inv H as h2 H2. injection H as <-.
    eapply InsertBefore_after; [exact Hne | by eapply linked_same_links | exact H2].
  - split; [intros e ->; done|]. intros _.
    res_inv H as e0 He0. unfold index in He0.
    destruct (elements !! 0) as [e0'|] eqn:Hel; [|discriminate]. injection He0 as ->.
    res_inv H as ancestor Hlca. rewrite (lca_same_links _ _ _ _ _ Hm) in Hlca.
    simpl in H. res_inv H as h2 H2. injection H as <-.
    exists e0, ancestor. repeat split; [done|]. by eapply AppendChild_last.
Qed.

(** C5 (counterexample).  With the default inserter and the two inputs
    [a] and [b] of [doc_group], whose computed ancestor is the div
    (node 5), the rendered fragment (node 9) does not follow the div: it
    is not placed After the reference node. *)
Lemma default_multi_not_after :
  ∃ h',
    example_Insert doc_group None [unlabelled 6; unlabelled 7] ["x"] doc_group
      = Ret (None, h') ∧
    lca 18 doc_group 6 [unlabelled 7] = Ret 5 ∧
    ¬ placed_after h' 5 9.
Proof.
  eexists. split; [vm_compute; reflexivity|].
  split; [vm_compute; reflexivity|].
  intros (r & f & Hr & _ & Hn & _).
  vm_compute in Hr. injection Hr as <-. vm_compute in Hn. discriminate.
Qed.

(** C5 (as amended).  Under the default incident-insertion
    configuration the error class is [error] and the renderer writes an
    unordered list, one item per message.  When the insertion succeeds,
    the first node of the parsed fragment is placed immediately after the
    matched element if there is exactly one (its sibling links being
    consistent), and otherwise it is appended as the last child of the
    ancestor that [lca] computes for the matched elements. *)
Theorem default_insertion_placement {E : External} (fuel : nat)
    (elements : list LabelableElement) (errors : list string)
    (h h1 h' : html.heap) (c : html.ptr) (rest : list html.ptr) :
  ParseFragment (Template DefaultIncidentInserter errors) h = inr (c :: rest, h1) →
  Insert fuel DefaultIncidentInserter elements errors h = Ret (None, h') →
  ErrorClass DefaultIncidentInserter = "error" ∧
  Template DefaultIncidentInserter errors =
    "<ul class=" +:+ dq +:+ "errors" +:+ dq +:+ ">"
    +:+ String.concat EmptyString
          (map (fun e => "<li>" +:+ HTMLEscape e +:+ "</li>") errors)
    +:+ "</ul>" ∧
  (∀ e, elements = [e] → linked h1 (Element e) → placed_after h' (Element e) c) ∧
  (length elements ≠ 1 →
     ∃ e0 ancestor,
       elements !! 0 = Some e0 ∧
       lca fuel h1 (Element e0) (drop 1 elements) = Ret ancestor ∧
       placed_last_child h' ancestor c).
Proof.
  intros Hparse H. split; [reflexivity|]. split; [reflexivity|].
  by eapply Insert_placement.
Qed.

Lemma default_insertion_placement_witness :
  ∃ h',
    example_Insert doc_group None [unlabelled 6] ["x"] doc_group = Ret (None, h') ∧
    placed_after h' 6 9.
Proof.
  eexists. split; [vm_compute; reflexivity|].
  refine (proj1 (proj2 (proj2
    (default_insertion_placement (E := example_external doc_group None) 18
       [unlabelled 6] ["x"] doc_group (doc_group ++ [ul_node]) _ 9 []
       eq_refl _))) (unlabelled 6) eq_refl _).
  - vm_compute. reflexivity.
  - intros nd Hnd. vm_compute in Hnd. injection Hnd as <-. simpl.
    eexists. split; [reflexivity|reflexivity].
Defined.

(** ** Frame of a population step *)

Lemma content_kept_refl (e : html.ptr) (h : html.heap) : content_kept e h h.
Proof. intros nd Hnd. eauto. Qed.

Lemma content_kept_trans (e : html.ptr) (h1 h2 h3 : html.heap) :
  content_kept e h1 h2 → content_kept e h2 h3 → content_kept e h1 h3.
Proof.
  intros H12 H23 nd Hnd. destruct (H12 nd Hnd) as (nd2 & Hnd2 & ? & ? & ?).
  destruct (H23 nd2 Hnd2) as (nd3 & Hnd3 & ? & ? & ?).
  exists nd3. repeat split; congruence.
Qed.

Lemma content_kept_store (e : html.ptr) (h h' : html.heap) (p : html.ptr)
    (f : html.Node → html.Node) :
  html.store h p f = Ret h' → relinks f ∨ p ≠ e → content_kept e h h'.
Proof.
  intros Hs Hf nd Hnd. rewrite (store_lookup _ _ _ e _ Hs).
  destruct (decide (p = e)) as [->|Hne].
  - destruct Hf as [Hf|Hf]; [|done]. rewrite Hnd. simpl.
    exists (f nd). split; [done|]. apply Hf.
  - eauto.
Qed.

Lemma relinks_set_Parent v : relinks (html.set_Parent v).
Proof. by intros []. Qed.
Lemma relinks_set_FirstChild v : relinks (html.set_FirstChild v).
Proof. by intros []. Qed.
Lemma relinks_set_LastChild v : relinks (html.set_LastChild v).
Proof. by intros []. Qed.
Lemma relinks_set_PrevSibling v : relinks (html.set_PrevSibling v).
Proof. by intros []. Qed.
Lemma relinks_set_NextSibling v : relinks (html.set_NextSibling v).
Proof. by intros []. Qed.

Create HintDb relink.
#[local] Hint Resolve relinks_set_Parent relinks_set_FirstChild relinks_set_LastChild
  relinks_set_PrevSibling relinks_set_NextSibling : relink.

Lemma content_kept_step (e : html.ptr) (h0 h h' : html.heap) (p : html.ptr)
    (f : html.Node → html.Node) :
  content_kept e h0 h → html.store h p f = Ret h' → relinks f → content_kept e h0 h'.
Proof.
  intros Hk Hs Hf. eapply content_kept_trans; [exact Hk|].
  eapply content_kept_store; [exact Hs | by left].
Qed.

(** Chains one more store onto a frame obtained so far. *)
Ltac frame_store Hk Hs :=
  apply (content_kept_step _ _ _ _ _ _ Hk) in Hs; [|by auto with relink];
  clear Hk; rename Hs into Hk.

Lemma content_kept_alloc (e : html.ptr) (h : html.heap) (nd : html.Node) :
  content_kept e h (html.alloc h nd).2.
Proof.
  intros n Hn. exists n. simpl. split; [|done]. by apply lookup_app_l_Some.
Qed.

Lemma RemoveChild_content_kept (e n c : html.ptr) (h h' : html.heap) :
  html.RemoveChild n c h = Ret h' → content_kept e h h'.
Proof.
  unfold html.RemoveChild. intros H. pose proof (content_kept_refl e h) as Hk.
  res_inv H as nc Hc. destruct (decide _); [discriminate|].
  res_inv H as nn Hn. res_inv H as h1 H1.
  destruct (decide _); [frame_store Hk H1 | injection H1 as <-].
  all: res_inv H as nc1 Hc1; res_inv H as h2 H2;
    (destruct (html.NextSibling nc1); [frame_store Hk H2 | injection H2 as <-]).
  all: res_inv H as nn2 Hn2; res_inv H as nc2 Hc2; res_inv H as h3 H3;
    (destruct (decide _); [frame_store Hk H3 | injection H3 as <-]).
  all: res_inv H as nc3 Hc3; res_inv H as h4 H4;
    (destruct (html.PrevSibling nc3); [frame_store Hk H4 | injection H4 as <-]).
  all: res_inv H as h5 H5; res_inv H as h6 H6;
    frame_store Hk H5; frame_store Hk H6; frame_store Hk H; exact Hk.
Qed.

Lemma AppendChild_content_kept (e n c : html.ptr) (h h' : html.heap) :
  html.AppendChild n c h = Ret h' → content_kept e h h'.
Proof.
  unfold html.AppendChild. intros H. pose proof (content_kept_refl e h) as Hk.
  res_inv H as nc Hc. destruct (html.attached nc); [discriminate|].
  res_inv H as nn Hn. res_inv H as h1 H1.
  destruct (html.LastChild nn); frame_store Hk H1.
  all: res_inv H as h2 H2; res_inv H as h3 H3;
    frame_store Hk H2; frame_store Hk H3; frame_store Hk H; exact Hk.
Qed.

Lemma remove_children_content_kept (e : html.ptr) (fuel : nat) (input : html.ptr)
    (c : option html.ptr) (h h' : html.heap) :
  processor.remove_children fuel input c h = Ret h' → content_kept e h h'.
Proof.
  revert c h. induction fuel as [|fuel IH]; intros [c|] h H; simpl in H;
    try discriminate; try (injection H as <-; apply content_kept_refl).
  res_inv H as h1 H1. res_inv H as nc Hc.
  eapply content_kept_trans; [by eapply RemoveChild_content_kept | by eapply IH].
Qed.

Lemma append_attr_content_kept (e : html.ptr) (h h' : html.heap) (n : html.ptr)
    (a : html.Attribute) :
  processor.append_attr h n a = Ret h' → n ≠ e → content_kept e h h'.
Proof. intros H Hne. eapply content_kept_store; [exact H | by right]. Qed.

Lemma populate_option_content_kept (e : html.ptr) (params : list string)
    (h h' : html.heap) (option : html.ptr) :
  processor.populate_option params h option = Ret h' → option ≠ e →
  content_kept e h h'.
Proof.
  unfold processor.populate_option. intros H Hne.
  res_inv H as nd Hnd. res_inv H as attrs Hattrs. res_inv H as h1 H1.
  eapply content_kept_trans; [eapply content_kept_store; [exact H1 | by right]|].
  revert H. apply (foldM_invariant (content_kept e h1)); [|apply content_kept_refl].
  intros s param s' _ Hs Hstep. destruct (decide _).
  - eapply content_kept_trans; [exact Hs|]. by eapply append_attr_content_kept.
  - by injection Hstep as <-.
Qed.

Lemma populate_default_content_kept (e : html.ptr) (p : processor.t)
    (params : list string) (input : html.ptr) (attributes : list html.Attribute)
    (h h' : html.heap) :
  processor.populate_default p params input attributes h = Ret h' → input ≠ e →
  content_kept e h h'.
Proof.
  unfold processor.populate_default. intros H Hne.
  destruct (decide _).
  { res_inv H as attrs Hattrs. res_inv H as h1 H1. res_inv H as check Hcheck.
    eapply content_kept_trans; [eapply content_kept_store; [exact H1 | by right]|].
    destruct check.
    - by eapply append_attr_content_kept.
    - injection H as <-. apply content_kept_refl. }
  destruct (decide _); [injection H as <-; apply content_kept_refl|].
  destruct (_ && _); [injection H as <-; apply content_kept_refl|].
  destruct (_ && _); [injection H as <-; apply content_kept_refl|].
  res_inv H as attrs Hattrs. res_inv H as h1 H1. res_inv H as param Hparam.
  eapply content_kept_trans; [eapply content_kept_store; [exact H1 | by right]|].
  by eapply append_attr_content_kept.
Qed.

(** A population step for [input] leaves the content of every other node
    alone, the options recorded for [input] apart. *)
Lemma populate_input_content_kept (e : html.ptr) (fuel : nat) (p : processor.t)
    (form : Form.t) (h h' : html.heap) (input : html.ptr) :
  processor.populate_input fuel p form h input = Ret h' → input ≠ e →
  (∀ opts, Form.options form !! input = Some opts → e ∉ opts) →
  content_kept e h h'.
Proof.
  unfold processor.populate_input. intros H Hne Hopts.
  res_inv H as nd Hnd.
  destruct (Form.Values form !! _) as [params|];
    [|injection H as <-; apply content_kept_refl].
  destruct (decide _).
  { destruct (Form.options form !! input) as [opts|] eqn:Ho;
      [|injection H as <-; apply content_kept_refl].
    specialize (Hopts opts eq_refl).
    revert H. apply (foldM_invariant (content_kept e h)); [|apply content_kept_refl].
    intros s o s' Ho' Hs Hstep. eapply content_kept_trans; [exact Hs|].
    eapply populate_option_content_kept; [exact Hstep|]. by intros ->. }
  destruct (decide _).
  { res_inv H as h1 H1. res_inv H as param Hparam.
    eapply content_kept_trans; [by eapply remove_children_content_kept|].
    eapply content_kept_trans; [apply (content_kept_alloc e h1 (processor.text_node param))|].
    destruct (html.alloc h1 (processor.text_node param)) as [text h2].
    by eapply AppendChild_content_kept. }
  by eapply populate_default_content_kept.
Qed.

(** With password population disabled, the step for a password input
    returns the store it was given. *)
Lemma populate_input_password (fuel : nat) (p : processor.t) (form : Form.t)
    (h : html.heap) (input : html.ptr) (nd : html.Node) :
  IncludePasswordInputs (processor.filter p) = false →
  h !! input = Some nd →
  html.Data nd = "input" →
  attr.Get (html.Attr nd) "type" = "password" →
  processor.populate_input fuel p form h input = Ret h.
Proof.
  intros Hcfg Hnd Hdata Htyp. unfold processor.populate_input, html.load.
  rewrite Hnd. simpl. destruct (Form.Values form !! _) as [params|]; [|done].
  rewrite Hdata. destruct (decide _) as [?|_]; [discriminate|].
  destruct (decide _) as [?|_]; [discriminate|].
  unfold processor.populate_default. rewrite Htyp, Hcfg.
  destruct (decide _) as [[?|?]|_]; [discriminate..|].
  destruct (decide _) as [[?|?]|_]; [discriminate..|].
  reflexivity.
Qed.

(** C6.  Under the configuration of [New] (password population
    disabled), the population step for an input element of type
    [password] returns the document untouched, whatever values are
    supplied under its name; and after the population of the whole form
    the element has the attributes it had before: none added, none
    modified. *)
Theorem populate_password_unchanged (fuel : nat) (p : processor.t) (formId : string)
    (form : Form.t) (h : html.heap) (e : html.ptr) (nd : html.Node) :
  IncludePasswordInputs (processor.filter p) = IncludePasswordInputs New →
  processor.forms p !! formId = Some form →
  options_are_options h form →
  h !! e = Some nd →
  html.Data nd = "input" →
  attr.Get (html.Attr nd) "type" = "password" →
  processor.populate_input fuel p form h e = Ret h ∧
  ∀ h', processor.populate fuel p formId h = Ret h' →
        ∃ nd', h' !! e = Some nd' ∧ html.Attr nd' = html.Attr nd.
Proof.
  intros Hcfg Hform Hopts Hnd Hdata Htyp. split.
  { by eapply populate_input_password. }
  intros h' H. unfold processor.populate in H. rewrite Hform in H.
  assert (∀ sel opts, Form.options form !! sel = Some opts → e ∉ opts) as Hnot.
  { intros sel opts Hsel He. destruct (Hopts sel opts e Hsel He) as (no & Hno & Hd).
    assert (no = nd) as -> by congruence. rewrite Hdata in Hd. discriminate. }
  assert (∃ nd', h' !! e = Some nd' ∧ html.Attr nd' = html.Attr nd ∧
                 html.Data nd' = html.Data nd) as (nd' & ? & ? & ?); [|by eauto].
  revert H.
  apply (foldM_invariant
           (fun s => ∃ nd', s !! e = Some nd' ∧ html.Attr nd' = html.Attr nd ∧
                            html.Data nd' = html.Data nd)); [|by eauto].
  intros s input s' _ (nd1 & Hnd1 & HA & HD) Hstep.
  destruct (decide (input = e)) as [->|Hne].
  - rewrite (populate_input_password fuel p form s e nd1) in Hstep;
      [injection Hstep as <-; eauto | done | done | congruence | congruence].
  - destruct (populate_input_content_kept e _ _ _ _ _ _ Hstep Hne (Hnot input) nd1 Hnd1)
      as (nd2 & Hnd2 & HA2 & HD2 & _).
    exists nd2. repeat split; congruence.
Qed.

Lemma populate_password_unchanged_witness :
  processor.populate_input 2 (processor_of None password_form) password_form
    password_doc 5 = Ret password_doc ∧
  ∀ h', processor.populate 2 (processor_of None password_form) EmptyString password_doc
          = Ret h' →
        ∃ nd', h' !! 5 = Some nd' ∧
               html.Attr nd' = [attribute "type" "password"; attribute "name" "pw"].
Proof.
  apply (populate_password_unchanged 2 (processor_of None password_form) EmptyString
           password_form password_doc 5
           (element (Some 4) None None None None "input"
                    [attribute "type" "password"; attribute "name" "pw"])).
  - reflexivity.
  - vm_compute. reflexivity.
  - intros sel opts o Hsel. vm_compute in Hsel. discriminate.
  - reflexivity.
  - reflexivity.
  - reflexivity.
Defined.

(** The scenario of the specification: [<input type=password name=pw>]
    with [{pw: [secret]}] under the configuration of [New] comes out of
    scope resolution and population unchanged. *)
Lemma populate_password_scenario :
  resolve_and_populate password_doc [("pw", ["secret"])] = Ret password_doc.
Proof. vm_compute. reflexivity. Qed.

(** ** Incidents that match nothing *)

Lemma foldM_fixed {A S : Type} (f : S → A → res S) (s : S) (l : list A) :
  (∀ a, a ∈ l → f s a = Ret s) → foldM f s l = Ret s.
Proof.
  induction l as [|a l IH]; intros H; simpl; [done|].
  rewrite H by left. simpl. apply IH. intros. apply H. by right.
Qed.

Lemma fold_left_unmatched (g : string) (el : LabelableElement) (names : list string)
    (elements : list LabelableElement) :
  g ∉ names →
  fold_left (fun elements name => if decide (g ≠ name) then elements else elements ++ [el])
            names elements = elements.
Proof.
  revert elements. induction names as [|name names IH]; intros elements Hg; simpl; [done|].
  apply not_elem_of_cons in Hg as [Hne Hg].
  destruct (decide (g ≠ name)); [by apply IH | done].
Qed.

(** When no input carries one of the incident's names, the search for
    its elements comes back empty. *)
Lemma elements_of_unmatched (h : html.heap) (form : Form.t) (incident : Incident) :
  unmatched h form incident → processor.elements_of h form incident = Ret [].
Proof.
  intros Hun. unfold processor.elements_of. apply foldM_fixed.
  intros input Hin. destruct (Hun input Hin) as (nd & Hnd & Hname).
  unfold html.load. rewrite Hnd. simpl. f_equal.
  by apply (fold_left_unmatched _ {| Element := input; Labels := _ |}).
Qed.

Lemma insert_incidents_app (Insert : IncidentInserter) (form : Form.t)
    (pre post : list Incident) (h : html.heap) :
  processor.insert_incidents Insert form (pre ++ post) h =
    ('(err, h1) ← processor.insert_incidents Insert form pre h;
     match err with
     | Some e => Ret (Some e, h1)
     | None => processor.insert_incidents Insert form post h1
     end).
Proof.
  revert h. induction pre as [|incident pre IH]; intros h; simpl; [done|].
  destruct (processor.elements_of h form incident) as [elements| |]; simpl; try done.
  destruct (decide _); [|apply IH].
  destruct (Insert elements (Errors incident) h) as [[[e|] h1]| |]; simpl; done.
Qed.

(** The loop over the incidents reads the inputs and labels of the form,
    not its list of incidents. *)
Lemma insert_incidents_set_Incidents (Insert : IncidentInserter) (form : Form.t)
    (v incidents : list Incident) (h : html.heap) :
  processor.insert_incidents Insert (Form.set_Incidents v form) incidents h =
  processor.insert_incidents Insert form incidents h.
Proof.
  revert h. induction incidents as [|incident incidents IH]; intros h; simpl; [done|].
  change (processor.elements_of h (Form.set_Incidents v form) incident)
    with (processor.elements_of h form incident).
  destruct (processor.elements_of h form incident) as [elements| |]; simpl; try done.
  destruct (decide _); [|apply IH].
  destruct (Insert elements (Errors incident) h) as [[[e|] h1]| |]; simpl; done.
Qed.

(** C8.  When an incident of a form matches no input of the form at the
    point where it is processed, [insert] does exactly what it does for
    the same form without that incident: the inserter is not invoked for
    it, the document is not touched by it and no error comes from it. *)
Theorem insert_skips_unmatched (p : processor.t) (formId : string) (form : Form.t)
    (pre post : list Incident) (incident : Incident) (h : html.heap) :
  processor.forms p !! formId = Some form →
  Form.Incidents form = pre ++ incident :: post →
  (∀ h1, processor.insert_incidents (processor.Insert_of p) form pre h = Ret (None, h1) →
         unmatched h1 form incident) →
  processor.insert p formId h =
  processor.insert
    (processor.set_forms
       (<[formId := Form.set_Incidents (pre ++ post) form]> (processor.forms p)) p)
    formId h.
Proof.
  intros Hform Hinc Hun. unfold processor.insert. rewrite Hform. simpl.
  rewrite lookup_insert_eq. simpl.
  change (processor.Insert_of (processor.set_forms _ p)) with (processor.Insert_of p).
  rewrite insert_incidents_set_Incidents, Hinc, !insert_incidents_app.
  destruct (processor.insert_incidents (processor.Insert_of p) form pre h)
    as [[[e|] h1]| |] eqn:Hpre; simpl; try done.
  rewrite (elements_of_unmatched h1 form incident) by (by apply Hun). simpl.
  destruct (decide (0 < 0)); [lia|done].
Qed.

Lemma insert_skips_unmatched_witness :
  processor.insert (processor_of (Some (example_Insert text_doc None)) stray_form)
    EmptyString text_doc =
  processor.insert
    (processor.set_forms
       (<[EmptyString := Form.set_Incidents [] stray_form]>
          (processor.forms (processor_of (Some (example_Insert text_doc None)) stray_form)))
       (processor_of (Some (example_Insert text_doc None)) stray_form))
    EmptyString text_doc.
Proof.
  apply (insert_skips_unmatched
           (processor_of (Some (example_Insert text_doc None)) stray_form)
           EmptyString stray_form [] [] stray_incident text_doc).
  - vm_compute. reflexivity.
  - reflexivity.
  - intros h1 [= <-] input Hin. apply list_elem_of_singleton in Hin as ->.
    eexists. split; [reflexivity|]. simpl. vm_compute.
    intros Hin. apply list_elem_of_singleton in Hin. discriminate.
Defined.

(** ** Failure of the insertion step *)

(** A fragment that does not parse makes [Insert] return the parser's
    error with the document as it was. *)
Lemma Insert_parse_failure {E : External} (fuel : nat) (i : GenericIncidentInserter)
    (elements : list LabelableElement) (errors : list string) (h : html.heap)
    (err : error) :
  ParseFragment (Template i errors) h = inl err →
  Insert fuel i elements errors h = Ret (Some err, h).
Proof. intros H. unfold Insert. by rewrite H. Qed.

Lemma process_forms_app (fuel : nat) (pre post : list string)
    (s : processor.t * html.heap) :
  process_forms fuel (pre ++ post) s =
    ('(err, s1) ← process_forms fuel pre s;
     match err with
     | Some e => Ret (Some e, s1)
     | None => process_forms fuel post s1
     end).
Proof.
  revert s. induction pre as [|formId pre IH]; intros s; simpl; [done|].
  destruct (process_form fuel formId s) as [[[e|] s1]| |]; simpl; done.
Qed.

(** C7.  When the forms before [formId] in the enumeration have been
    processed without error and the insertion step of [formId] returns
    the error [e], [Execute] returns [e] and the writer holds exactly
    what it held on entry: [Render] is only reached when every form has
    been populated and annotated without error. *)
Theorem Execute_insertion_failure {E : External} (fuel : nat)
    (order pre post : list string) (formId : string)
    (fpf : FormPopulationFilter) (forms : list Form.t) (w r : string)
    (document : html.ptr) (h h1 h2 h3 : html.heap) (p p1 : processor.t)
    (form form' : Form.t) (e : error) :
  Parse r = inr (document, h) →
  processor.traverse fuel h document context0 (new_processor fuel fpf forms document)
    = Ret p →
  order = pre ++ formId :: post →
  process_forms fuel pre (p, h) = Ret (None, (p1, h1)) →
  processor.forms p1 !! formId = Some form →
  match_labels h1 (processor.labels p1) form = Ret form' →
  processor.populate fuel
    (processor.set_forms (<[formId := form']> (processor.forms p1)) p1) formId h1
    = Ret h2 →
  processor.insert
    (processor.set_forms (<[formId := form']> (processor.forms p1)) p1) formId h2
    = Ret (Some e, h3) →
  Execute fuel order fpf forms w r = Ret (Some e, w).
Proof.
  intros Hparse Htraverse -> Hpre Hform Hmatch Hpopulate Hinsert.
  unfold Execute. rewrite Hparse, Htraverse. simpl.
  rewrite process_forms_app, Hpre. simpl.
  unfold process_form. rewrite Hform, Hmatch. simpl.
  rewrite Hpopulate. simpl. rewrite Hinsert. reflexivity.
Qed.

Lemma Execute_insertion_failure_witness :
  Execute (E := example_external text_doc (Some "malformed fragment")) 12
    [EmptyString] New [failing_form] EmptyString text_markup
  = Ret (Some "malformed fragment", EmptyString).
Proof.
  eapply (Execute_insertion_failure
            (E := example_external text_doc (Some "malformed fragment")) 12
            [EmptyString] [] [] EmptyString New [failing_form] EmptyString text_markup).
  - reflexivity.
  - vm_compute. reflexivity.
  - reflexivity.
  - reflexivity.
  - vm_compute. reflexivity.
  - vm_compute. reflexivity.
  - vm_compute. reflexivity.
  - vm_compute. reflexivity.
Defined.

(** ** Scope resolution: the inputs of a form *)

Lemma inputs_extended_nil (h : html.heap) (p : processor.t) : inputs_extended h p p [].
Proof.
  intros formId. unfold inputs_of. simpl.
  destruct (processor.forms p !! formId); simpl; [|done]. by rewrite app_nil_r.
Qed.

Lemma inputs_of_app (h : html.heap) (formId : string)
    (l1 l2 : list (html.ptr * option html.ptr)) :
  inputs_of h formId (l1 ++ l2) = inputs_of h formId l1 ++ inputs_of h formId l2.
Proof. unfold inputs_of. by rewrite filter_app, fmap_app. Qed.

Lemma inputs_extended_app (h : html.heap) (p1 p2 p3 : processor.t)
    (l1 l2 : list (html.ptr * option html.ptr)) :
  inputs_extended h p1 p2 l1 → inputs_extended h p2 p3 l2 →
  inputs_extended h p1 p3 (l1 ++ l2).
Proof.
  intros H12 H23 formId. specialize (H12 formId). specialize (H23 formId).
  rewrite inputs_of_app.
  destruct (processor.forms p1 !! formId) as [f1|],
           (processor.forms p2 !! formId) as [f2|],
           (processor.forms p3 !! formId) as [f3|]; simpl in *; try done.
  injection H12 as H12. injection H23 as H23. by rewrite H23, H12, app_assoc.
Qed.

(** Not being a populatable element of any form adds nothing. *)
Lemma inputs_extended_skip (h : html.heap) (p p' : processor.t)
    (entry : html.ptr * option html.ptr) :
  (∀ formId, populatable_of h formId entry = false) →
  (∀ formId, Form.inputs <$> processor.forms p' !! formId =
             Form.inputs <$> processor.forms p !! formId) →
  inputs_extended h p p' [entry].
Proof.
  intros Hno Hsame formId. rewrite Hsame. unfold inputs_of.
  rewrite filter_cons_False by (cbv beta; rewrite Hno; exact id).
  destruct (processor.forms p !! formId); simpl; [|done]. by rewrite app_nil_r.
Qed.

(** What [keep] decides is the kind test of the specification, and it
    never changes the enclosing form. *)
Lemma keep_spec (n : html.ptr) (nd : html.Node) (context : formContext.t) :
  match processor.keep n nd context with
  | Some context' =>
      populatable_kind nd = true ∧
      formContext.Form context' = formContext.Form context
  | None => populatable_kind nd = false
  end.
Proof.
  unfold processor.keep, populatable_kind.
  destruct (decide _) as [H1|H1].
  { split; [|done]. apply bool_decide_eq_true. tauto. }
  destruct (decide (html.Data nd = "button")) as [Hb|Hb].
  { destruct (decide _) as [Ht|Ht].
    - apply bool_decide_eq_false. rewrite Hb in *.
      intros [?|[?|[?|[?|[?|[_ ?]]]]]]; done.
    - split; [|done]. apply bool_decide_eq_true.
      apply dec_stable in Ht. tauto. }
  destruct (decide (html.Data nd = "select")) as [Hs|Hs].
  { split; [|done]. apply bool_decide_eq_true. tauto. }
  apply bool_decide_eq_false. tauto.
Qed.

Lemma populatable_of_eq (h : html.heap) (formId : string) (n : html.ptr)
    (enclosing : option html.ptr) (nd : html.Node) :
  h !! n = Some nd →
  populatable_of h formId (n, enclosing) =
    bool_decide (html.Type' nd = html.ElementNode) &&
    bool_decide (attr.Get (html.Attr nd) "name" ≠ EmptyString) &&
    populatable_kind nd &&
    bool_decide (owner h nd enclosing = Some formId).
Proof. intros Hn. unfold populatable_of. simpl. by rewrite Hn. Qed.

Lemma inputs_of_not (h : html.heap) (formId : string)
    (entry : html.ptr * option html.ptr) :
  populatable_of h formId entry = false → inputs_of h formId [entry] = [].
Proof.
  intros H. unfold inputs_of.
  by rewrite filter_cons_False by (cbv beta; rewrite H; exact id).
Qed.

Lemma inputs_of_yes (h : html.heap) (formId : string)
    (entry : html.ptr * option html.ptr) :
  populatable_of h formId entry = true → inputs_of h formId [entry] = [entry.1].
Proof.
  intros H. unfold inputs_of.
  by rewrite filter_cons_True by (cbv beta; rewrite H; exact I).
Qed.

Lemma populatable_of_other (h : html.heap) (formId formId0 : string) (n : html.ptr)
    (enclosing : option html.ptr) (nd : html.Node) :
  h !! n = Some nd → owner h nd enclosing = Some formId0 → formId ≠ formId0 →
  populatable_of h formId (n, enclosing) = false.
Proof.
  intros Hn Hown Hne. rewrite (populatable_of_eq _ _ _ _ nd Hn), Hown.
  rewrite (bool_decide_eq_false_2 (Some formId0 = Some formId)) by congruence.
  apply andb_false_r.
Qed.

Lemma populatable_kind_label (nd : html.Node) :
  html.Data nd = "label" → populatable_kind nd = false.
Proof.
  intros H. unfold populatable_kind. apply bool_decide_eq_false. rewrite H.
  intros [?|[?|[?|[?|[?|[? _]]]]]]; done.
Qed.

Lemma populatable_kind_option (nd : html.Node) :
  html.Data nd = "option" → populatable_kind nd = false.
Proof.
  intros H. unfold populatable_kind. apply bool_decide_eq_false. rewrite H.
  intros [?|[?|[?|[?|[?|[? _]]]]]]; done.
Qed.

(** The end of the block: the node joins the inputs of its form exactly
    when it is a populatable element of that form. *)
Lemma attach_spec (h : html.heap) (n : html.ptr) (nd : html.Node) (formId : string)
    (form : Form.t) (context : formContext.t) (p : processor.t) :
  h !! n = Some nd →
  html.Type' nd = html.ElementNode →
  owner h nd (formContext.Form context) = Some formId →
  processor.forms p !! formId = Some form →
  formContext.Form (processor.attach n nd formId form context p).2
    = formContext.Form context ∧
  inputs_extended h p (processor.attach n nd formId form context p).1
    [(n, formContext.Form context)].
Proof.
  intros Hn Hty Hown Hform. unfold processor.attach.
  pose proof (populatable_of_eq h formId n (formContext.Form context) nd Hn) as Hpop.
  rewrite Hown, (bool_decide_eq_true_2 _ Hty), (bool_decide_eq_true_2 _ eq_refl) in Hpop.
  destruct (decide (attr.Get (html.Attr nd) "name" = EmptyString)) as [Hname|Hname].
  { split; [done|]. apply inputs_extended_skip; [|done]. intros fid.
    rewrite (populatable_of_eq _ _ _ _ nd Hn).
    by rewrite (bool_decide_eq_false_2 _ (fun H => H Hname)), andb_false_r. }
  rewrite (bool_decide_eq_true_2 _ Hname) in Hpop.
  pose proof (keep_spec n nd context) as Hkeep.
  destruct (processor.keep n nd context) as [context'|].
  2: { split; [done|]. apply inputs_extended_skip; [|done]. intros fid.
       rewrite (populatable_of_eq _ _ _ _ nd Hn), Hkeep.
       by rewrite andb_false_r. }
  destruct Hkeep as [Hkind Hctx]. rewrite Hkind in Hpop. simpl in Hpop.
  split; [done|]. intros fid. simpl.
  destruct (decide (fid = formId)) as [->|Hne].
  - rewrite lookup_insert_eq, Hform. simpl. rewrite (inputs_of_yes _ _ _ Hpop). simpl.
    by destruct (formContext.Label context').
  - rewrite lookup_insert_ne by done.
    rewrite (inputs_of_not h fid); [|by eapply populatable_of_other].
    destruct (processor.forms p !! fid); simpl; [|done]. by rewrite app_nil_r.
Qed.

(** The body of [traverse] on one node: it returns, leaves the enclosing
    form of the context alone, and extends the inputs of the forms by the
    node exactly when the node is a populatable element. *)
Lemma examine_spec (h : html.heap) (n : html.ptr) (nd : html.Node)
    (context : formContext.t) (p : processor.t) :
  h !! n = Some nd →
  (∀ f, formContext.Form context = Some f → is_Some (h !! f)) →
  ∃ p' context',
    processor.examine h n nd context p = Ret (p', context') ∧
    formContext.Form context' = formContext.Form context ∧
    inputs_extended h p p' [(n, formContext.Form context)].
Proof.
  intros Hn Hvalid. unfold processor.examine.
  destruct (decide (html.Type' nd ≠ html.ElementNode)) as [Hty|Hty].
  { exists p, context. split; [done|]. split; [done|].
    apply inputs_extended_skip; [|done]. intros fid.
    rewrite (populatable_of_eq _ _ _ _ nd Hn).
    by rewrite (bool_decide_eq_false_2 _ Hty). }
  apply dec_stable in Hty.
  destruct (decide _) as [[Henc Hattr]|Hscope].
  { exists p, context. split; [done|]. split; [done|].
    apply inputs_extended_skip; [|done]. intros fid.
    rewrite (populatable_of_eq _ _ _ _ nd Hn). unfold owner. rewrite Hattr, Henc.
    rewrite (bool_decide_eq_false_2 (None = Some fid)) by done.
    apply andb_false_r. }
  assert (∃ formId,
            (if decide (match attr.Attribute (html.Attr nd) "form" with
                        | Some i => attr.Val_at (html.Attr nd) i
                        | None => EmptyString
                        end = EmptyString ∧ formContext.Form context ≠ None)
             then fnd ← html.deref h (formContext.Form context);
                  Ret (attr.Get (html.Attr fnd) "id")
             else Ret match attr.Attribute (html.Attr nd) "form" with
                      | Some i => attr.Val_at (html.Attr nd) i
                      | None => EmptyString
                      end) = Ret formId ∧
            owner h nd (formContext.Form context) = Some formId)
    as (formId & -> & Hown).
  { unfold owner. destruct (attr.Attribute (html.Attr nd) "form") as [i|] eqn:Ha.
    - destruct (decide (attr.Val_at (html.Attr nd) i = EmptyString)) as [Hv|Hv].
      + destruct (formContext.Form context) as [f|] eqn:Hf.
        * destruct (Hvalid f eq_refl) as [fnd Hfnd].
          exists (attr.Get (html.Attr fnd) "id").
          rewrite decide_True by done. simpl. unfold html.load. by rewrite Hfnd.
        * exists EmptyString. rewrite decide_False by (by intros [_ ?]).
          by rewrite Hv.
      + exists (attr.Val_at (html.Attr nd) i).
        by rewrite decide_False by (by intros [? _]).
    - destruct (formContext.Form context) as [f|] eqn:Hf; [|by destruct Hscope].
      destruct (Hvalid f eq_refl) as [fnd Hfnd].
      exists (attr.Get (html.Attr fnd) "id").
      rewrite decide_True by done. simpl. unfold html.load. by rewrite Hfnd. }
  rewrite bind_Ret_l.
  destruct (processor.forms p !! formId) as [form|] eqn:Hform.
  2: { exists p, context. split; [done|]. split; [done|]. intros fid.
       destruct (decide (fid = formId)) as [->|Hne]; [by rewrite Hform|].
       rewrite (inputs_of_not h fid); [|by eapply populatable_of_other].
       destruct (processor.forms p !! fid); simpl; [|done]. by rewrite app_nil_r. }
  destruct (bool_decide (html.Data nd = "label") && attr.Has (html.Attr nd) "for")
    eqn:Hlabel.
  { eexists _, context. split; [done|]. split; [done|].
    apply inputs_extended_skip; [|done]. intros fid.
    apply andb_true_iff in Hlabel as [Hl%bool_decide_eq_true _].
    rewrite (populatable_of_eq _ _ _ _ nd Hn), (populatable_kind_label nd Hl).
    by rewrite andb_false_r. }
  pose proof (attach_spec h n nd formId form context p Hn Hty Hown Hform) as [Hctx Hext].
  destruct (formContext.Select context) as [sel|].
  2: { eexists _, _. split; [by rewrite (surjective_pairing (processor.attach _ _ _ _ _ _))|].
       done. }
  destruct (decide (html.Data nd = "option")) as [Hopt|Hopt].
  2: { eexists _, _. split; [by rewrite (surjective_pairing (processor.attach _ _ _ _ _ _))|].
       done. }
  eexists _, context. split; [done|]. split; [done|].
  apply inputs_extended_skip.
  - intros fid. rewrite (populatable_of_eq _ _ _ _ nd Hn), (populatable_kind_option nd Hopt).
    by rewrite andb_false_r.
  - intros fid. simpl. destruct (decide (fid = formId)) as [->|Hne].
    + by rewrite lookup_insert_eq, Hform.
    + by rewrite lookup_insert_ne.
Qed.

Lemma traverse_S (fuel : nat) (h : html.heap) (n : html.ptr) (context : formContext.t)
    (p : processor.t) :
  processor.traverse (S fuel) h n context p =
    (nd ← html.load h n;
     '(p, context) ← processor.examine h n nd (processor.enter n nd context) p;
     processor.children fuel h (html.FirstChild nd) context p).
Proof. reflexivity. Qed.

Lemma children_S (fuel : nat) (h : html.heap) (c : html.ptr) (context : formContext.t)
    (p : processor.t) :
  processor.children (S fuel) h (Some c) context p =
    (p ← processor.traverse fuel h c context p;
     nc ← html.load h c;
     processor.children fuel h (html.NextSibling nc) context p).
Proof. reflexivity. Qed.

Lemma scope_S (fuel : nat) (h : html.heap) (n : html.ptr) (enclosing : option html.ptr) :
  scope (S fuel) h n enclosing =
    (nd ← html.load h n;
     rest ← scope_children fuel h (html.FirstChild nd)
               (if bool_decide (html.Type' nd = html.ElementNode ∧ html.Data nd = "form")
                then Some n else enclosing);
     Ret ((n, if bool_decide (html.Type' nd = html.ElementNode ∧ html.Data nd = "form")
              then Some n else enclosing) :: rest)).
Proof. reflexivity. Qed.

Lemma scope_children_S (fuel : nat) (h : html.heap) (c : html.ptr)
    (enclosing : option html.ptr) :
  scope_children (S fuel) h (Some c) enclosing =
    (here ← scope fuel h c enclosing;
     nc ← html.load h c;
     rest ← scope_children fuel h (html.NextSibling nc) enclosing;
     Ret (here ++ rest)).
Proof. reflexivity. Qed.

Lemma enter_Form (n : html.ptr) (nd : html.Node) (context : formContext.t) :
  formContext.Form (processor.enter n nd context) =
    if bool_decide (html.Type' nd = html.ElementNode ∧ html.Data nd = "form")
    then Some n else formContext.Form context.
Proof.
  unfold processor.enter. destruct (decide (html.Type' nd = html.ElementNode)) as [Ht|Ht].
  - destruct (decide (html.Data nd = "form")) as [Hd|Hd].
    + by rewrite bool_decide_eq_true_2.
    + rewrite bool_decide_eq_false_2 by (by intros [_ ?]).
      by destruct (decide (html.Data nd = "label")).
  - by rewrite bool_decide_eq_false_2 by (by intros [? _]).
Qed.

(** Whenever the walk that lists the scope fits in the fuel, so does
    [traverse], and it extends the inputs of every form by the form's
    populatable elements among the nodes walked, in the order walked. *)
Lemma traverse_scope (fuel : nat) (h : html.heap) :
  (∀ n context p l,
     (∀ f, formContext.Form context = Some f → is_Some (h !! f)) →
     scope fuel h n (formContext.Form context) = Ret l →
     ∃ p', processor.traverse fuel h n context p = Ret p' ∧ inputs_extended h p p' l) ∧
  (∀ c context p l,
     (∀ f, formContext.Form context = Some f → is_Some (h !! f)) →
     scope_children fuel h c (formContext.Form context) = Ret l →
     ∃ p', processor.children fuel h c context p = Ret p' ∧ inputs_extended h p p' l).
Proof.
  induction fuel as [|fuel [IHt IHc]].
  { split; [intros; discriminate|].
    intros [c|] context p l _ H; [discriminate|]. injection H as <-.
    exists p. split; [done|]. apply inputs_extended_nil. }
  split.
  - intros n context p l Hvalid H. rewrite scope_S in H. rewrite traverse_S.
    res_inv H as nd Hnd. rewrite Hnd. rewrite bind_Ret_l. apply load_Ret in Hnd.
    res_inv H as rest Hrest. injection H as <-.
    rewrite <- enter_Form in Hrest |- *.
    assert (∀ f, formContext.Form (processor.enter n nd context) = Some f →
                 is_Some (h !! f)) as Hvalid'.
    { intros f. rewrite enter_Form. destruct (bool_decide _); [|by apply Hvalid].
      intros [= <-]. eauto. }
    destruct (examine_spec h n nd (processor.enter n nd context) p Hnd Hvalid')
      as (p1 & context1 & -> & Hctx & Hext1).
    rewrite bind_Ret_l. cbv beta iota. rewrite <- Hctx in Hrest, Hvalid'.
    destruct (IHc (html.FirstChild nd) context1 p1 rest Hvalid' Hrest)
      as (p' & -> & Hext2).
    exists p'. split; [done|].
    by apply (inputs_extended_app h p p1 p' [_] rest).
  - intros [c|] context p l Hvalid H.
    2: { injection H as <-. exists p. split; [done|]. apply inputs_extended_nil. }
    rewrite scope_children_S in H. rewrite children_S.
    res_inv H as here Hhere. res_inv H as nc Hnc. res_inv H as rest Hrest.
    injection H as <-.
    destruct (IHt c context p here Hvalid Hhere) as (p1 & -> & Hext1).
    rewrite bind_Ret_l, Hnc, bind_Ret_l.
    destruct (IHc (html.NextSibling nc) context p1 rest Hvalid Hrest)
      as (p' & -> & Hext2).
    exists p'. split; [done|]. by eapply inputs_extended_app.
Qed.




(** In [doc_scoped] the input that is attributable to the form [f] both
    by nesting and by its form attribute is listed once, first, and the
    other input after it. *)
Lemma traverse_scoped_inputs :
  (p ← processor.traverse 14 doc_scoped 0 context0 scoped_processor;
   Ret (Form.inputs <$> processor.forms p !! "f")) = Ret (Some [5; 6]) ∧
  inputs_of doc_scoped "f" scoped_listing = [5; 6].
Proof. split; vm_compute; reflexivity. Qed.

(** ** Reads of the first supplied value *)













(** ** What the ancestor computation does return *)

Lemma chain_functional (h : html.heap) (start : option html.ptr) (l1 l2 : list html.ptr) :
  chain h start l1 → chain h start l2 → l1 = l2.
Proof.
  intros H1. revert l2. induction H1 as [|q nd l Hq _ IH]; intros l2 H2.
  - by inversion H2.
  - inversion H2 as [|q' nd' l' Hq' Hl']; subst. f_equal. apply IH.
    by replace nd with nd' by congruence.
Qed.

Lemma ancestry_functional (h : html.heap) (n : html.ptr) (l1 l2 : list html.ptr) :
  ancestry h n l1 → ancestry h n l2 → l1 = l2.
Proof.
  intros (nd1 & Hn1 & H1) (nd2 & Hn2 & H2). eapply chain_functional; [exact H1|].
  by replace nd1 with nd2 by congruence.
Qed.

(** The ancestors of an ancestor are the rest of the list. *)
Lemma chain_split (h : html.heap) (start : option html.ptr) (l : list html.ptr)
    (q : html.ptr) :
  chain h start l → q ∈ l → ∃ pre post, l = pre ++ q :: post ∧ ancestry h q post.
Proof.
  intros H. induction H as [|q' nd l Hq' Hl IH]; intros Hin.
  - by apply elem_of_nil in Hin.
  - destruct (decide (q = q')) as [->|Hne].
    + exists [], l. split; [done|]. by exists nd.
    + apply elem_of_cons in Hin as [?|Hin]; [done|].
      destruct (IH Hin) as (pre & post & -> & Hpost).
      by exists (q' :: pre), post.
Qed.

Lemma meets_spec (fuel : nat) (h : html.heap) (ap : html.ptr) (bp : option html.ptr)
    (l : list html.ptr) :
  chain h bp l → length l ≤ fuel → meets fuel h ap bp = Ret (bool_decide (ap ∈ l)).
Proof.
  intros H. revert fuel. induction H as [|q nd l Hq Hl IH]; intros fuel Hfuel.
  - by destruct fuel.
  - assert (meets fuel h ap (Some q) =
              if decide (ap = q) then Ret true else
              match fuel with
              | 0 => Timeout
              | S fuel' => nb ← html.load h q; meets fuel' h ap (html.Parent nb)
              end) as -> by (by destruct fuel).
    destruct (decide (ap = q)) as [->|Hne].
    { by rewrite bool_decide_eq_true_2 by left. }
    destruct fuel as [|fuel]; [simpl in Hfuel; lia|].
    unfold html.load. rewrite Hq. simpl. rewrite IH by (simpl in Hfuel; lia).
    f_equal. apply bool_decide_ext. rewrite elem_of_cons.
    split; [by right | by intros [?|?]].
Qed.

Lemma first_shared_spec (fuel : nat) (h : html.heap) (ap : option html.ptr)
    (b : html.Node) (la lb : list html.ptr) :
  chain h ap la → chain h (html.Parent b) lb → length la + length lb ≤ fuel →
  first_shared fuel h ap b = Ret (first_common lb la).
Proof.
  intros Ha Hb. revert fuel. induction Ha as [|q nd la Hq Hla IH]; intros fuel Hfuel.
  - by destruct fuel.
  - rewrite first_shared_Some, (meets_spec _ _ _ _ lb Hb) by lia. simpl.
    destruct (bool_decide (q ∈ lb)); [done|].
    destruct fuel as [|fuel]; [simpl in Hfuel; lia|].
    unfold html.load. rewrite Hq. simpl. apply IH. simpl in Hfuel. lia.
Qed.

Lemma first_common_None (lb la : list html.ptr) :
  first_common lb la = None → ∀ x, x ∈ la → x ∉ lb.
Proof.
  induction la as [|y la IH]; simpl; intros H x Hx.
  - by apply elem_of_nil in Hx.
  - destruct (bool_decide (y ∈ lb)) eqn:Hy; [discriminate|].
    apply bool_decide_eq_false in Hy.
    apply elem_of_cons in Hx as [->|Hx]; [done | by apply IH].
Qed.

(** What [first_common] finds lies in both lists, and nothing before it
    in the first list lies in the second. *)
Lemma first_common_Some (lb la : list html.ptr) (x : html.ptr) :
  first_common lb la = Some x →
  x ∈ lb ∧ ∃ pre post, la = pre ++ x :: post ∧ ∀ y, y ∈ pre → y ∉ lb.
Proof.
  induction la as [|y la IH]; simpl; [discriminate|].
  destruct (bool_decide (y ∈ lb)) eqn:Hy.
  - intros [= <-]. apply bool_decide_eq_true in Hy. split; [done|].
    exists [], la. split; [done|]. intros z Hz. by apply elem_of_nil in Hz.
  - intros H. apply bool_decide_eq_false in Hy.
    destruct (IH H) as (Hx & pre & post & -> & Hpre). split; [done|].
    exists (y :: pre), post. split; [done|].
    intros z Hz. apply elem_of_cons in Hz as [->|Hz]; [done | by apply Hpre].
Qed.

(** The recursion of [lca], for elements that all hang below [root]: it
    returns, within the fuel, a node that is among the ancestors of the
    running ancestor [a] (or [a] itself when [a] is the root) and among
    the strict ancestors of every element still to fold. *)
Lemma lca_spec (fuel : nat) (h : html.heap) (root : html.ptr)
    (next : list LabelableElement) :
  ∀ a la,
    ancestry h a la →
    (la = [] → a = root) →
    (la ≠ [] → last la = Some root) →
    next ≠ [] →
    Forall (fun x => ∃ l, ancestry h (Element x) l ∧ last l = Some root ∧
                          length la + length l ≤ fuel) next →
    ∃ r, lca fuel h a next = Ret r ∧
         (r ∈ la ∨ (la = [] ∧ r = a)) ∧
         Forall (fun x => ∃ l, ancestry h (Element x) l ∧ r ∈ l) next.
Proof.
  induction next as [|b rest IH]; intros a la Ha Hroot0 Hroot1 Hne Hall; [done|].
  apply Forall_cons in Hall as [(lb & Hb & Hlast & Hfuel) Hrest].
  pose proof Ha as (na & Hna & Hca). pose proof Hb as (nb & Hnb & Hcb).
  assert (lca fuel h a (b :: rest) =
            match first_common lb la with
            | Some ap => if decide (1 < length (b :: rest)) then lca fuel h ap rest
                         else Ret ap
            | None => Ret a
            end) as ->.
  { simpl. unfold html.load. rewrite Hna, Hnb. simpl.
    by rewrite (first_shared_spec fuel h _ nb la lb Hca Hcb Hfuel). }
  destruct (first_common lb la) as [ap|] eqn:Hfc.
  - apply first_common_Some in Hfc as (Hap_lb & pre & post & Hla & Hpre).
    assert (ap ∈ la) as Hap_la by (rewrite Hla; apply elem_of_app; right; by left).
    destruct (chain_split h _ la ap Hca Hap_la) as (pre1 & post1 & Hla1 & Hap1).
    destruct (chain_split h _ lb ap Hcb Hap_lb) as (pre2 & post2 & Hlb2 & Hap2).
    assert (post2 = post1) as -> by (by eapply ancestry_functional).
    assert (last la = Some root) as Hl.
    { apply Hroot1. rewrite Hla1. by destruct pre1. }
    destruct (decide (1 < length (b :: rest))) as [Hlen|Hlen].
    + destruct (IH ap post1 Hap1) as (r & Hlca & Hr & Hall).
      * intros ->. rewrite Hla1, last_snoc in Hl. congruence.
      * intros Hpost. rewrite Hla1, last_app_cons, last_cons in Hl.
        destruct (last post1) eqn:Hlp; [done|]. by apply last_None in Hlp.
      * intros ->. simpl in Hlen. lia.
      * eapply Forall_impl; [exact Hrest|]. intros x (l & Hx & Hlx & Hfx).
        exists l. repeat split; [done..|]. rewrite Hla1, length_app in Hfx.
        simpl in Hfx. lia.
      * exists r. split; [done|].
        assert (r ∈ post1 ∨ r = ap) as Hr' by (destruct Hr as [?|[_ ?]]; eauto).
        assert (∀ pre0, r ∈ pre0 ++ ap :: post1) as Hin.
        { intros pre0. apply elem_of_app. right.
          destruct Hr' as [?| ->]; [by right | by left]. }
        split; [left; by rewrite Hla1|].
        apply Forall_cons. split; [|done]. exists lb. split; [done|].
        by rewrite Hlb2.
    + exists ap. split; [done|]. split; [by left|].
      destruct rest; [|simpl in Hlen; lia].
      apply Forall_cons. split; [|by apply Forall_nil]. by exists lb.
  - assert (la = []) as ->.
    { destruct la as [|x la]; [done|]. exfalso.
      assert (root ∈ x :: la) as Hin by (apply last_Some_elem_of; by apply Hroot1).
      apply (first_common_None _ _ Hfc root Hin). by apply last_Some_elem_of. }
    exists a. split; [done|]. split; [by right|].
    rewrite (Hroot0 eq_refl). apply Forall_cons. split.
    + exists lb. split; [done|]. by apply last_Some_elem_of.
    + eapply Forall_impl; [exact Hrest|]. intros x (l & Hx & Hlx & _).
      exists l. split; [done|]. by apply last_Some_elem_of.
Qed.

(** X17.  For a group of two or more elements that hang below one root,
    each by a chain of parents that ends (and fits twice in the fuel),
    [lca] returns, and what it returns is a strict ancestor of every
    element of the group. *)
Lemma lca_strict_common_ancestor (fuel : nat) (h : html.heap) (root : html.ptr)
    (first : LabelableElement) (next : list LabelableElement) :
  next ≠ [] →
  Forall (fun x => ∃ l, ancestry h (Element x) l ∧ last l = Some root ∧
                        2 * length l ≤ fuel) (first :: next) →
  ∃ r, lca fuel h (Element first) next = Ret r ∧
       Forall (fun x => ∃ l, ancestry h (Element x) l ∧ r ∈ l) (first :: next).
Proof.
  intros Hne Hall. apply Forall_cons in Hall as [(la & Ha & Hlast & Hfuel) Hrest].
  destruct (lca_spec fuel h root next (Element first) la) as (r & Hlca & Hr & Hall);
    [done | by intros -> | done | done | |].
  { eapply Forall_impl; [exact Hrest|]. intros x (l & Hx & Hlx & Hfx).
    exists l. repeat split; [done..|]. lia. }
  exists r. split; [done|]. apply Forall_cons. split; [|done].
  exists la. split; [done|]. destruct Hr as [?|[-> _]]; [done|]. done.
Qed.

(** X18.  For a group of exactly two elements the node returned is the
    lowest one: no ancestor of the first element below it is an ancestor
    of the second. *)
Lemma lca_pair_lowest (fuel : nat) (h : html.heap) (a b : LabelableElement)
    (la lb : list html.ptr) (r : html.ptr) :
  ancestry h (Element a) la → ancestry h (Element b) lb →
  length la + length lb ≤ fuel →
  lca fuel h (Element a) [b] = Ret r → r ∈ la →
  ∃ pre post, la = pre ++ r :: post ∧ ∀ y, y ∈ pre → y ∉ lb.
Proof.
  intros (na & Hna & Hca) (nb & Hnb & Hcb) Hfuel H Hr. simpl in H.
  unfold html.load in H. rewrite Hna, Hnb in H. simpl in H.
  rewrite (first_shared_spec fuel h _ nb la lb Hca Hcb Hfuel) in H. simpl in H.
  destruct (first_common lb la) as [ap|] eqn:Hfc.
  - destruct (decide (1 < 1)); [lia|]. injection H as <-.
    by apply first_common_Some in Hfc as (_ & Hfc).
  - injection H as <-. exfalso.
    (* [r] is the first element itself here, which is not among its own
       ancestors: the chain would not end *)
    destruct (chain_split h _ la (Element a) Hca Hr) as (pre & post & Hla & Ha').
    assert (post = la) as -> by (eapply ancestry_functional; [exact Ha'|by exists na]).
    apply (f_equal length) in Hla. rewrite length_app in Hla. simpl in Hla. lia.
Qed.

(** ** What reaches the writer *)

(** X19.  Whatever [Execute] returns, the writer either holds what it
    held on entry, and an error is returned, or it holds what [Render]
    made of it after the document was parsed, traversed and every form
    processed without error. *)
Lemma Execute_output {E : External} (fuel : nat) (order : list string)
    (fpf : FormPopulationFilter) (forms : list Form.t) (w r w' : string)
    (err : option error) :
  Execute fuel order fpf forms w r = Ret (err, w') →
  (w' = w ∧ err ≠ None) ∨
  ∃ document h p p' h',
    Parse r = inr (document, h) ∧
    processor.traverse fuel h document context0 (new_processor fuel fpf forms document)
      = Ret p ∧
    process_forms fuel order (p, h) = Ret (None, (p', h')) ∧
    Render h' document w = (w', err).
Proof.
  unfold Execute. intros H.
  destruct (Parse r) as [e|[document h]] eqn:Hparse.
  { injection H as <- <-. by left. }
  res_inv H as p Hp. res_inv H as s Hs. destruct s as [[e|] [p' h']].
  - injection H as <- <-. by left.
  - right. exists document, h, p, p', h'. repeat split; [done..|].
    destruct (Render h' document w) as [w1 err1]. by injection H as <- <-.
Qed.

(** * Further properties of the code *)

(** ** Package attr: reading attributes *)

Lemma index_from_None (i : nat) (attrs : list html.Attribute) (name : string) :
  attr.index_from i attrs name = None ↔ ∀ a, a ∈ attrs → html.Key a ≠ name.
Proof.
  revert i. induction attrs as [|b attrs IH]; intros i; simpl.
  - split; [|done]. intros _ a Ha. by apply elem_of_nil in Ha.
  - destruct (decide (html.Key b = name)) as [Hb|Hb].
    + split; [done|]. intros H. exfalso. apply (H b); [by left | done].
    + rewrite IH. split.
      * intros H a Ha. apply elem_of_cons in Ha as [->|Ha]; [done | by apply H].
      * intros H a Ha. apply H. by right.
Qed.

Lemma index_from_Some (i k : nat) (attrs : list html.Attribute) (name : string) :
  attr.index_from i attrs name = Some k → ∃ a, a ∈ attrs ∧ html.Key a = name.
Proof.
  revert i. induction attrs as [|b attrs IH]; intros i; simpl; [done|].
  destruct (decide (html.Key b = name)) as [Hb|Hb].
  - intros _. exists b. split; [by left | done].
  - intros H. destruct (IH _ H) as (a & Ha & Hk). exists a. split; [by right | done].
Qed.

Lemma index_from_first (i : nat) (pre post : list html.Attribute) (a : html.Attribute) :
  (∀ b, b ∈ pre → html.Key b ≠ html.Key a) →
  attr.index_from i (pre ++ a :: post) (html.Key a) = Some (i + length pre).
Proof.
  revert i. induction pre as [|b pre IH]; intros i Hpre; simpl.
  - rewrite decide_True by done. f_equal. lia.
  - rewrite decide_False by (apply Hpre; by left).
    rewrite IH by (intros c Hc; apply Hpre; by right). f_equal. lia.
Qed.

(** X1.  With several attributes of the same key, the first one is the
    one read: [Get] returns its value and [Has] answers yes, whatever
    follows it. *)
Theorem Get_first_match (pre post : list html.Attribute) (a : html.Attribute) :
  (∀ b, b ∈ pre → html.Key b ≠ html.Key a) →
  attr.Get (pre ++ a :: post) (html.Key a) = html.Val a ∧
  attr.Has (pre ++ a :: post) (html.Key a) = true.
Proof.
  intros Hpre. unfold attr.Get, attr.Has, attr.Attribute.
  rewrite (index_from_first 0 pre post a Hpre). simpl. split.
  - unfold attr.Val_at. by rewrite list_lookup_middle.
  - done.
Qed.

Lemma Get_first_match_witness :
  attr.Get ([attribute "type" "text"] ++ attribute "value" "old" ::
            [attribute "value" "new"]) "value" = "old" ∧
  attr.Has ([attribute "type" "text"] ++ attribute "value" "old" ::
            [attribute "value" "new"]) "value" = true.
Proof.
  apply (Get_first_match [attribute "type" "text"] [attribute "value" "new"]
           (attribute "value" "old")).
  intros b Hb. apply list_elem_of_singleton in Hb as ->. discriminate.
Defined.

(** X2.  [Has] answers yes exactly when some attribute carries the key,
    and [Get] of a key that [Has] denies is the empty string: an absent
    attribute reads like one that is present with an empty value. *)
Theorem Has_iff (attrs : list html.Attribute) (name : string) :
  (attr.Has attrs name = true ↔ ∃ a, a ∈ attrs ∧ html.Key a = name) ∧
  (attr.Has attrs name = false → attr.Get attrs name = EmptyString).
Proof.
  unfold attr.Has, attr.Get, attr.Attribute.
  destruct (attr.index_from 0 attrs name) as [i|] eqn:Hi.
  - split.
    + split; [intros _; by eapply index_from_Some|intros _; by apply bool_decide_eq_true].
    + intros H%bool_decide_eq_false. by destruct H.
  - split; [|done]. split.
    + intros H%bool_decide_eq_true. by destruct H.
    + intros (a & Ha & Hk). exfalso.
      by apply (proj1 (index_from_None 0 attrs name) Hi a Ha).
Qed.

(** ** Package attr: Remove *)




Lemma matched_before_last_lookup (attrs : list html.Attribute) (name : string) :
  matched_before_last attrs name ↔
  ∃ i a, attrs !! i = Some a ∧ S i < length attrs ∧ html.Key a = name.
Proof.
  unfold matched_before_last. rewrite Exists_exists. split.
  - intros (a & Ha & Hk). apply elem_of_take in Ha as (i & Hi & Hlt).
    exists i, a. repeat split; [done| lia |done].
  - intros (i & a & Hi & Hlt & Hk). exists a. split; [|done].
    apply elem_of_take. exists i. split; [done|lia].
Qed.


(** ** Value population: the rules one by one *)

(** X4.  A form whose values name none of its inputs leaves the document
    exactly as it was: an input without an entry under its name is not
    touched. *)
Theorem populate_without_values (fuel : nat) (p : processor.t) (formId : string)
    (form : Form.t) (h : html.heap) :
  processor.forms p !! formId = Some form →
  (∀ input, input ∈ Form.inputs form →
     ∃ nd, h !! input = Some nd ∧
           Form.Values form !! attr.Get (html.Attr nd) "name" = None) →
  processor.populate fuel p formId h = Ret h.
Proof.
  intros Hform Hin. unfold processor.populate. rewrite Hform.
  apply foldM_fixed. intros input Hinput.
  destruct (Hin input Hinput) as (nd & Hnd & Hval).
  unfold processor.populate_input, html.load. rewrite Hnd. simpl. by rewrite Hval.
Qed.

Lemma populate_without_values_witness :
  processor.populate 2 (processor_of None (Form.set_inputs [5] (form_of [] [])))
    EmptyString text_doc = Ret text_doc.
Proof.
  apply (populate_without_values 2 _ EmptyString (Form.set_inputs [5] (form_of [] []))).
  - vm_compute. reflexivity.
  - intros input Hin. apply list_elem_of_singleton in Hin as ->.
    eexists. split; [reflexivity|]. vm_compute. reflexivity.
Defined.

(** X5.  Inputs of type [file] or [image] are never filled, and inputs of
    type [hidden] are not filled when hidden population is switched off:
    the step returns the document untouched whatever the values are.
    (The element kind is looked at first: a [select] or a [textarea]
    carrying such a type attribute is not covered.) *)
Theorem populate_input_skipped_types (fuel : nat) (p : processor.t) (form : Form.t)
    (h : html.heap) (input : html.ptr) (nd : html.Node) :
  h !! input = Some nd →
  html.Data nd ≠ "select" → html.Data nd ≠ "textarea" →
  attr.Get (html.Attr nd) "type" = "file" ∨
  attr.Get (html.Attr nd) "type" = "image" ∨
  (attr.Get (html.Attr nd) "type" = "hidden" ∧
   IncludeHiddenInputs (processor.filter p) = false) →
  processor.populate_input fuel p form h input = Ret h.
Proof.
  intros Hnd Hsel Htext Htyp. unfold processor.populate_input, html.load.
  rewrite Hnd. simpl. destruct (Form.Values form !! _) as [params|]; [|done].
  rewrite decide_False by done. rewrite decide_False by done.
  unfold processor.populate_default.
  destruct Htyp as [Ht|[Ht|[Ht Hcfg]]]; rewrite Ht; try rewrite Hcfg;
    (destruct (decide _) as [[?|?]|_]; [discriminate..|]); try reflexivity;
    (destruct (decide _) as [[?|?]|_]; [discriminate..|]); reflexivity.
Qed.

Lemma populate_input_skipped_types_witness :
  processor.populate_input 2 (processor_of None (form_of [("foo", ["bar"])] []))
    (form_of [("foo", ["bar"])] [])
    (doc_input [attribute "type" "file"; attribute "name" "foo"]) 5
  = Ret (doc_input [attribute "type" "file"; attribute "name" "foo"]).
Proof.
  apply (populate_input_skipped_types 2 _ _ _ 5
           (element (Some 4) None None None None "input"
                    [attribute "type" "file"; attribute "name" "foo"])).
  - reflexivity.
  - discriminate.
  - discriminate.
  - left. reflexivity.
Defined.

Lemma Remove_unmatched (attrs : list html.Attribute) (name : string) :
  ¬ matched_before_last attrs name → attr.Remove attrs name = Ret attrs.
Proof.
  intros Hm. apply Remove_absent. intros i a Hi Hlt Hk. apply Hm.
  apply matched_before_last_lookup. eauto.
Qed.

Lemma store_set_Attr_id (h : html.heap) (n : html.ptr) (nd : html.Node) :
  h !! n = Some nd → html.store h n (html.set_Attr (html.Attr nd)) = Ret h.
Proof.
  intros Hn. unfold html.store. rewrite Hn. f_equal.
  apply list_insert_id. rewrite Hn. by destruct nd.
Qed.

Lemma append_attr_Ret (h : html.heap) (n : html.ptr) (nd : html.Node)
    (a : html.Attribute) :
  h !! n = Some nd →
  processor.append_attr h n a = Ret (<[n := html.set_Attr (html.Attr nd ++ [a]) nd]> h).
Proof. intros Hn. unfold processor.append_attr, html.store. by rewrite Hn. Qed.

(** X6.  The rule for radio buttons and checkboxes, for an element whose
    attributes other than the last are not [checked].  Without a value
    attribute the element gets [checked] appended, even when the value
    list is empty.  With a value attribute the first supplied value is
    read: the element gets [checked] appended when the two are equal and
    is left as it was otherwise; an empty value list makes that read
    panic.  An existing [checked] attribute is never taken away. *)
Theorem populate_input_checkbox (fuel : nat) (p : processor.t) (form : Form.t)
    (h : html.heap) (input : html.ptr) (nd : html.Node) (params : list string) :
  h !! input = Some nd →
  html.Data nd ≠ "select" → html.Data nd ≠ "textarea" →
  attr.Get (html.Attr nd) "type" = "radio" ∨
  attr.Get (html.Attr nd) "type" = "checkbox" →
  Form.Values form !! attr.Get (html.Attr nd) "name" = Some params →
  ¬ matched_before_last (html.Attr nd) "checked" →
  processor.populate_input fuel p form h input =
    if attr.Has (html.Attr nd) "value" then
      match params with
      | [] => Panic (IndexOutOfRange "params" 0 0)
      | param :: _ =>
          if decide (attr.Get (html.Attr nd) "value" = param)
          then Ret (<[input := html.set_Attr
                                 (html.Attr nd ++ [attribute "checked" "checked"]) nd]> h)
          else Ret h
      end
    else Ret (<[input := html.set_Attr
                           (html.Attr nd ++ [attribute "checked" "checked"]) nd]> h).
Proof.
  intros Hnd Hsel Htext Htyp Hval Hm. unfold processor.populate_input, html.load.
  rewrite Hnd. simpl. rewrite Hval.
  rewrite decide_False by done. rewrite decide_False by done.
  unfold processor.populate_default. rewrite decide_True by done.
  rewrite (Remove_unmatched _ _ Hm). simpl.
  rewrite (store_set_Attr_id h input nd Hnd). simpl.
  unfold attr.Has, attr.Get. destruct (attr.Attribute (html.Attr nd) "value") as [i|].
  - rewrite bool_decide_eq_true_2 by done. destruct params as [|param params]; [done|].
    simpl. destruct (decide (attr.Val_at (html.Attr nd) i = param)) as [He|He].
    + rewrite bool_decide_eq_true_2 by done. by apply append_attr_Ret.
    + by rewrite bool_decide_eq_false_2 by done.
  - rewrite bool_decide_eq_false_2 by (by intros []). simpl. by apply append_attr_Ret.
Qed.

Lemma populate_input_checkbox_witness :
  processor.populate_input 2 (processor_of None (form_of [("foo", [])] []))
    (form_of [("foo", [])] [])
    (doc_input [attribute "type" "checkbox"; attribute "name" "foo"]) 5
  = Ret (<[5 := html.set_Attr
                  ([attribute "type" "checkbox"; attribute "name" "foo"] ++
                   [attribute "checked" "checked"])
                  (element (Some 4) None None None None "input"
                           [attribute "type" "checkbox"; attribute "name" "foo"])]>
           (doc_input [attribute "type" "checkbox"; attribute "name" "foo"])).
Proof.
  apply (populate_input_checkbox 2 _ _ _ 5
           (element (Some 4) None None None None "input"
                    [attribute "type" "checkbox"; attribute "name" "foo"]) []).
  - reflexivity.
  - discriminate.
  - discriminate.
  - right. reflexivity.
  - vm_compute. reflexivity.
  - intros H. apply matched_before_last_lookup in H as (i & a & Hi & Hlt & Hk).
    simpl in Hlt. assert (i = 0) as -> by lia. injection Hi as <-. discriminate.
Defined.

Lemma mark_selected_loop (h : html.heap) (option : html.ptr) (nd : html.Node)
    (value : string) (params : list string) (k : nat) :
  h !! option = Some nd →
  foldM (fun h param =>
           if decide (value = param)
           then processor.append_attr h option (attribute "selected" "selected")
           else Ret h)
        (<[option := html.set_Attr
                       (html.Attr nd ++ replicate k (attribute "selected" "selected")) nd]> h)
        params
  = Ret (<[option := html.set_Attr
                       (html.Attr nd ++
                        replicate (k + length (filter (fun param => value = param) params))
                                  (attribute "selected" "selected")) nd]> h).
Proof.
  intros Hn. revert k. induction params as [|param params IH]; intros k; simpl.
  - by rewrite Nat.add_0_r.
  - destruct (decide (value = param)) as [He|He].
    + rewrite filter_cons_True by done.
      erewrite append_attr_Ret;
        [|apply list_lookup_insert_eq; by eapply lookup_lt_Some].
      simpl. rewrite list_insert_insert_eq.
      replace (html.set_Attr _ (html.set_Attr _ nd))
        with (html.set_Attr
                (html.Attr nd ++ replicate (S k) (attribute "selected" "selected")) nd).
      * rewrite IH. simpl. by rewrite <- plus_n_Sm.
      * destruct nd. unfold html.set_Attr. simpl. f_equal.
        rewrite <- app_assoc. f_equal. apply replicate_cons_app.
    + rewrite filter_cons_False by done. simpl. apply IH.
Qed.

(** X7.  The marking of one option of a select, for an option whose
    attributes other than the last are not [selected]: the option keeps
    all its attributes and gets one [selected] attribute appended for
    every supplied value equal to its value attribute, so a value that is
    supplied twice marks it twice and an option that was already marked
    stays marked when its value is not supplied. *)
Theorem populate_option_selected (params : list string) (h : html.heap)
    (option : html.ptr) (nd : html.Node) :
  h !! option = Some nd →
  ¬ matched_before_last (html.Attr nd) "selected" →
  processor.populate_option params h option =
    Ret (<[option :=
             html.set_Attr
               (html.Attr nd ++
                replicate
                  (length (filter (fun param => attr.Get (html.Attr nd) "value" = param)
                                  params))
                  (attribute "selected" "selected")) nd]> h).
Proof.
  intros Hn Hm. unfold processor.populate_option, html.load. rewrite Hn. simpl.
  rewrite (Remove_unmatched _ _ Hm). simpl.
  rewrite (store_set_Attr_id h option nd Hn). simpl.
  pose proof (mark_selected_loop h option nd (attr.Get (html.Attr nd) "value") params 0 Hn)
    as Hloop.
  simpl in Hloop. rewrite app_nil_r in Hloop.
  rewrite <- Hloop. f_equal. symmetry. apply list_insert_id. rewrite Hn. by destruct nd.
Qed.

Lemma populate_option_selected_witness :
  processor.populate_option ["bar"; "foo"; "bar"] doc_select 6
  = Ret (<[6 := html.set_Attr
                  ([attribute "value" "bar"] ++
                   replicate 2 (attribute "selected" "selected"))
                  (element (Some 5) None None None (Some 7) "option"
                           [attribute "value" "bar"])]> doc_select).
Proof.
  apply (populate_option_selected ["bar"; "foo"; "bar"] doc_select 6
           (element (Some 5) None None None (Some 7) "option" [attribute "value" "bar"])).
  - reflexivity.
  - intros H. apply matched_before_last_lookup in H as (i & a & Hi & Hlt & Hk).
    simpl in Hlt. lia.
Defined.

Lemma RemoveChild_detaches (n c : html.ptr) (h h' : html.heap) :
  html.RemoveChild n c h = Ret h' →
  ∃ nc, h' !! c = Some nc ∧ html.NextSibling nc = None.
Proof.
  unfold html.RemoveChild. intros H.
  res_inv H as nc Hc. destruct (decide _); [discriminate|].
  res_inv H as nn Hn. res_inv H as h1 H1. res_inv H as nc1 Hc1. res_inv H as h2 H2.
  res_inv H as nn2 Hn2. res_inv H as nc2 Hc2. res_inv H as h3 H3.
  res_inv H as nc3 Hc3. res_inv H as h4 H4. res_inv H as h5 H5. res_inv H as h6 H6.
  destruct (store_lookup_eq _ _ _ _ H) as (nd & _ & Hnd). eauto.
Qed.

(** X8.  The loop that is to empty a textarea stops after its first
    round: removing a child clears the child's link to its next sibling,
    which is where the loop reads its next node from.  So only the first
    child is removed, however many there are. *)
Theorem remove_children_first_only (fuel : nat) (input c : html.ptr) (h : html.heap) :
  processor.remove_children (S fuel) input (Some c) h = html.RemoveChild input c h.
Proof.
  simpl. destruct (html.RemoveChild input c h) as [h'| |] eqn:Hr; simpl; [|done..].
  destruct (RemoveChild_detaches _ _ _ _ Hr) as (nc & Hc & Hnext).
  unfold html.load. rewrite Hc. simpl. rewrite Hnext. by destruct fuel.
Qed.

Lemma RemoveChild_length (n c : html.ptr) (h h' : html.heap) :
  html.RemoveChild n c h = Ret h' → length h' = length h.
Proof.
  unfold html.RemoveChild. intros H.
  res_inv H as nc Hc. destruct (decide _); [discriminate|].
  res_inv H as nn Hn. res_inv H as h1 H1.
  assert (length h1 = length h) as L1.
  { destruct (decide (html.FirstChild nn = Some c));
      [by eapply store_length | by injection H1 as <-]. }
  res_inv H as nc1 Hc1. res_inv H as h2 H2.
  assert (length h2 = length h1) as L2.
  { destruct (html.NextSibling nc1); [by eapply store_length | by injection H2 as <-]. }
  res_inv H as nn2 Hn2. res_inv H as nc2 Hc2. res_inv H as h3 H3.
  assert (length h3 = length h2) as L3.
  { destruct (decide (html.LastChild nn2 = Some c));
      [by eapply store_length | by injection H3 as <-]. }
  res_inv H as nc3 Hc3. res_inv H as h4 H4.
  assert (length h4 = length h3) as L4.
  { destruct (html.PrevSibling nc3); [by eapply store_length | by injection H4 as <-]. }
  res_inv H as h5 H5. res_inv H as h6 H6.
  apply store_length in H5, H6, H. lia.
Qed.

Lemma remove_children_length (fuel : nat) (input : html.ptr) (c : option html.ptr)
    (h h' : html.heap) :
  processor.remove_children fuel input c h = Ret h' → length h' = length h.
Proof.
  revert c h. induction fuel as [|fuel IH]; intros [c|] h H; simpl in H;
    try discriminate; try (by injection H as <-).
  res_inv H as h1 H1. res_inv H as nc Hc.
  apply RemoveChild_length in H1. apply IH in H. lia.
Qed.

Lemma AppendChild_length (n c : html.ptr) (h h' : html.heap) :
  html.AppendChild n c h = Ret h' → length h' = length h.
Proof.
  unfold html.AppendChild. intros H.
  res_inv H as nc Hc. destruct (html.attached nc); [discriminate|].
  res_inv H as nn Hn. res_inv H as h1 H1.
  assert (length h1 = length h) as L1.
  { destruct (html.LastChild nn); by eapply store_length. }
  res_inv H as h2 H2. res_inv H as h3 H3.
  apply store_length in H2, H3, H. lia.
Qed.

(** X9.  The rule for a textarea, whenever it runs to its end: the value
    list is not empty, one node has been added to the document, and that
    node, a text node holding the first supplied value, is the last child
    of the textarea. *)
Theorem populate_input_textarea (fuel : nat) (p : processor.t) (form : Form.t)
    (h h' : html.heap) (input : html.ptr) (nd : html.Node) (params : list string) :
  h !! input = Some nd →
  html.Data nd = "textarea" →
  Form.Values form !! attr.Get (html.Attr nd) "name" = Some params →
  processor.populate_input fuel p form h input = Ret h' →
  ∃ param text,
    params !! 0 = Some param ∧
    length h' = S (length h) ∧
    h' !! length h = Some text ∧
    html.Type' text = html.TextNode ∧ html.Data text = param ∧
    placed_last_child h' input (length h).
Proof.
  intros Hnd Hdata Hval H. unfold processor.populate_input, html.load in H.
  rewrite Hnd in H. simpl in H. rewrite Hval, Hdata in H.
  destruct (decide _) as [?|_]; [discriminate|].
  destruct (decide _) as [_|?]; [|done].
  res_inv H as h1 H1. res_inv H as param Hparam.
  unfold index in Hparam. destruct (params !! 0) as [param'|] eqn:Hp; [|discriminate].
  injection Hparam as ->.
  pose proof (remove_children_length _ _ _ _ _ H1) as L1.
  unfold html.alloc in H. rewrite L1 in H.
  pose proof (AppendChild_length _ _ _ _ H) as L2. rewrite length_app in L2.
  simpl in L2.
  destruct (AppendChild_content_kept (length h) _ _ _ _ H (processor.text_node param))
    as (text & Htext & _ & HD & HT).
  { rewrite <- L1. by apply list_lookup_middle. }
  exists param, text. repeat split; [lia | done | done | done |].
  by eapply AppendChild_last.
Qed.

Lemma populate_input_textarea_witness :
  ∃ h',
    processor.populate_input 2 (processor_of None (form_of [("foo", ["bar"])] []))
      (form_of [("foo", ["bar"])] []) doc_textarea 5 = Ret h' ∧
    ∃ param text,
      ["bar"] !! 0 = Some param ∧
      length h' = S (length doc_textarea) ∧
      h' !! length doc_textarea = Some text ∧
      html.Type' text = html.TextNode ∧ html.Data text = param ∧
      placed_last_child h' 5 (length doc_textarea).
Proof.
  eexists. split; [vm_compute; reflexivity|].
  apply (populate_input_textarea 2 (processor_of None (form_of [("foo", ["bar"])] []))
           (form_of [("foo", ["bar"])] []) doc_textarea _ 5
           (element (Some 4) (Some 6) (Some 6) None None "textarea"
                    [attribute "name" "foo"]) ["bar"]).
  - reflexivity.
  - reflexivity.
  - vm_compute. reflexivity.
  - vm_compute. reflexivity.
Defined.

(** ** Error insertion: which elements, which calls *)

Lemma fold_left_matched (g : string) (el : LabelableElement) (names : list string)
    (elements : list LabelableElement) :
  NoDup names →
  fold_left (fun elements name => if decide (g ≠ name) then elements else elements ++ [el])
            names elements
  = elements ++ (if decide (g ∈ names) then [el] else []).
Proof.
  revert elements. induction names as [|name names IH]; intros elements Hnd;
    cbn [fold_left].
  - rewrite decide_False by apply not_elem_of_nil. by rewrite app_nil_r.
  - apply NoDup_cons in Hnd as [Hname Hnd].
    destruct (decide (g ≠ name)) as [Hne|He].
    + rewrite IH by done. f_equal.
      destruct (decide (g ∈ names)) as [Hin|Hin].
      * rewrite decide_True; [done|by right].
      * rewrite decide_False; [done|]. intros [?|?]%elem_of_cons; done.
    + apply dec_stable in He. subst name.
      rewrite fold_left_unmatched by done. rewrite decide_True; [done|by left].
Qed.

Lemma elements_of_from (h : html.heap) (form : Form.t) (names : list string)
    (inputs : list html.ptr) (elements : list LabelableElement) :
  NoDup names →
  (∀ input, input ∈ inputs → is_Some (h !! input)) →
  foldM (fun elements input =>
           nd ← html.load h input;
           Ret (fold_left
                  (fun elements name =>
                     if decide (attr.Get (html.Attr nd) "name" ≠ name) then elements
                     else elements ++
                          [ {| Element := input;
                               Labels := slice_at (Form.labels form) input |} ])
                  names elements))
        elements inputs
  = Ret (elements ++ (labelable form <$> filter (named_in h names) inputs)).
Proof.
  intros Hnd. revert elements. induction inputs as [|input inputs IH];
    intros elements Hvalid; simpl.
  - by rewrite app_nil_r.
  - destruct (Hvalid input) as [nd Hn]; [by left|].
    unfold html.load. rewrite Hn. simpl.
    rewrite (fold_left_matched _ (labelable form input)) by done.
    rewrite IH by (intros; apply Hvalid; by right).
    rewrite <- app_assoc. do 2 f_equal.
    destruct (decide (attr.Get (html.Attr nd) "name" ∈ names)) as [Hin|Hin].
    + rewrite filter_cons_True; [done|]. unfold named_in. by rewrite Hn.
    + rewrite filter_cons_False; [done|]. unfold named_in. by rewrite Hn.
Qed.

(** X10.  For an incident whose names are all different, the elements
    handed to the inserter are exactly the inputs of the form that carry
    one of the names, in the order of the form's input list, each with
    the labels the form holds for it.  The order of the names plays no
    part. *)
Theorem elements_of_named (h : html.heap) (form : Form.t) (incident : Incident) :
  NoDup (Names incident) →
  (∀ input, input ∈ Form.inputs form → is_Some (h !! input)) →
  processor.elements_of h form incident =
    Ret (labelable form <$> filter (named_in h (Names incident)) (Form.inputs form)).
Proof.
  intros Hnd Hvalid. unfold processor.elements_of.
  by rewrite (elements_of_from h form (Names incident) (Form.inputs form) []).
Qed.

Lemma elements_of_named_witness :
  processor.elements_of doc_group
    (Form.set_inputs [6; 7; 8] (form_of [] []))
    {| Names := ["c"; "a"]; Errors := [] |}
  = Ret [unlabelled 6; unlabelled 8].
Proof.
  apply (elements_of_named doc_group (Form.set_inputs [6; 7; 8] (form_of [] []))
           {| Names := ["c"; "a"]; Errors := [] |}).
  - apply (bool_decide_unpack _). vm_compute. exact I.
  - intros input Hin.
    repeat (apply elem_of_cons in Hin as [->|Hin]); [eauto..|].
    by apply elem_of_nil in Hin.
Defined.

(** X11.  [insert] never hands the inserter an empty list of elements:
    two inserters that agree on every non-empty list give the same run,
    whatever they do on the empty one. *)
Theorem insert_incidents_nonempty_only (Insert Insert' : IncidentInserter)
    (form : Form.t) (incidents : list Incident) (h : html.heap) :
  (∀ elements errors h, elements ≠ [] →
     Insert elements errors h = Insert' elements errors h) →
  processor.insert_incidents Insert form incidents h =
  processor.insert_incidents Insert' form incidents h.
Proof.
  intros Hagree. revert h. induction incidents as [|incident incidents IH]; intros h;
    simpl; [done|].
  destruct (processor.elements_of h form incident) as [elements| |]; simpl; [|done..].
  destruct (decide (0 < length elements)) as [Hlen|Hlen]; [|apply IH].
  rewrite Hagree by (intros ->; simpl in Hlen; lia).
  destruct (Insert' elements (Errors incident) h) as [[[e|] h1]| |]; simpl; [done| |done..].
  apply IH.
Qed.

Lemma insert_incidents_nonempty_only_witness :
  processor.insert_incidents (example_Insert text_doc None)
    (Form.set_inputs [5] (form_of [] [failing_incident; stray_incident]))
    [failing_incident; stray_incident] text_doc =
  processor.insert_incidents
    (fun elements errors h =>
       match elements with
       | [] => Ret (Some "no elements", h)
       | _ => example_Insert text_doc None elements errors h
       end)
    (Form.set_inputs [5] (form_of [] [failing_incident; stray_incident]))
    [failing_incident; stray_incident] text_doc.
Proof.
  apply (insert_incidents_nonempty_only (example_Insert text_doc None)).
  intros elements errors h Hne. by destruct elements.
Defined.

(** X12.  The first error stops the loop over the incidents: when the
    inserter fails on an incident, [insert] returns that error with the
    document as the failing call left it, and the incidents after it are
    not looked at. *)
Theorem insert_incidents_stops (Insert : IncidentInserter) (form : Form.t)
    (pre post : list Incident) (h h1 : html.heap) (e : error) :
  processor.insert_incidents Insert form pre h = Ret (Some e, h1) →
  processor.insert_incidents Insert form (pre ++ post) h = Ret (Some e, h1).
Proof. intros H. by rewrite insert_incidents_app, H. Qed.

Lemma insert_incidents_stops_witness :
  processor.insert_incidents (example_Insert text_doc (Some "malformed fragment"))
    (Form.set_inputs [5] (form_of [] []))
    ([failing_incident] ++ [failing_incident; stray_incident]) text_doc
  = Ret (Some "malformed fragment", text_doc).
Proof.
  apply (insert_incidents_stops _ _ [failing_incident]).
  vm_compute. reflexivity.
Defined.

(** ** Marking with the error class *)

Lemma index_from_keys (i : nat) (l1 l2 : list html.Attribute) (name : string) :
  html.Key <$> l1 = html.Key <$> l2 →
  attr.index_from i l1 name = attr.index_from i l2 name.
Proof.
  revert i l2. induction l1 as [|a l1 IH]; intros i [|b l2] H; try done.
  simpl in *. injection H as Hk Hl. rewrite Hk.
  destruct (decide (html.Key b = name)); [done|]. by apply IH.
Qed.

Lemma index_from_bound (i k : nat) (attrs : list html.Attribute) (name : string) :
  attr.index_from i attrs name = Some k → i ≤ k < i + length attrs.
Proof.
  revert i. induction attrs as [|a attrs IH]; intros i; simpl; [done|].
  destruct (decide (html.Key a = name)).
  - intros [= <-]. lia.
  - intros H%IH. lia.
Qed.

Lemma index_from_snoc (i : nat) (attrs : list html.Attribute) (a : html.Attribute)
    (name : string) :
  attr.index_from i (attrs ++ [a]) name =
    match attr.index_from i attrs name with
    | Some k => Some k
    | None => if decide (html.Key a = name) then Some (i + length attrs) else None
    end.
Proof.
  revert i. induction attrs as [|b attrs IH]; intros i; simpl.
  - destruct (decide (html.Key a = name)); [f_equal; lia | done].
  - destruct (decide (html.Key b = name)); [done|]. rewrite IH.
    destruct (attr.index_from (S i) attrs name); [done|].
    destruct (decide (html.Key a = name)); [f_equal; lia | done].
Qed.

(** The cells found for two different keys are different cells. *)
Lemma index_from_distinct (i : nat) (l : list html.Attribute) (name1 name2 : string)
    (k : nat) :
  name2 ≠ name1 →
  attr.index_from i l name1 = Some k → attr.index_from i l name2 = Some k → False.
Proof.
  intros Hne. revert i. induction l as [|b l IH]; intros i; simpl; [done|].
  destruct (decide (html.Key b = name1)) as [Hb|Hb],
           (decide (html.Key b = name2)) as [Hb'|Hb']; try congruence.
  - intros [= <-] Hj%index_from_bound. lia.
  - intros Hk%index_from_bound [= <-]. lia.
  - apply IH.
Qed.

Lemma Get_snoc (attrs : list html.Attribute) (a : html.Attribute) (name : string) :
  attr.Get (attrs ++ [a]) name =
    if attr.Has attrs name then attr.Get attrs name
    else if decide (html.Key a = name) then html.Val a else EmptyString.
Proof.
  unfold attr.Get, attr.Has, attr.Attribute. rewrite index_from_snoc.
  destruct (attr.index_from 0 attrs name) as [k|] eqn:Hk.
  - rewrite bool_decide_eq_true_2 by done. apply index_from_bound in Hk.
    unfold attr.Val_at. by rewrite lookup_app_l by lia.
  - rewrite bool_decide_eq_false_2 by (by intros []).
    destruct (decide (html.Key a = name)); [|done].
    unfold attr.Val_at. by rewrite list_lookup_middle.
Qed.

(** X13.  Marking a node with the error class always succeeds on a node
    of the document.  A node without a class attribute gets one holding
    the error class; otherwise the error class is added, after a space,
    to the value of the first class attribute, once more at every
    marking.  Every other attribute reads as before. *)
Theorem addErrorClass_class (i : GenericIncidentInserter) (h : html.heap)
    (node : html.ptr) (nd : html.Node) :
  h !! node = Some nd →
  ∃ nd',
    addErrorClass i h node = Ret (<[node := nd']> h) ∧
    nd' = html.set_Attr (html.Attr nd') nd ∧
    attr.Get (html.Attr nd') "class" =
      (if attr.Has (html.Attr nd) "class"
       then attr.Get (html.Attr nd) "class" +:+ " " +:+ ErrorClass i
       else ErrorClass i) ∧
    ∀ name, name ≠ "class" →
      attr.Get (html.Attr nd') name = attr.Get (html.Attr nd) name.
Proof.
  intros Hn. unfold addErrorClass, html.load, html.store. rewrite Hn. simpl.
  destruct (attr.Attribute (html.Attr nd) "class") as [k|] eqn:Hk.
  - eexists. split; [reflexivity|]. split; [by destruct nd|].
    unfold attr.Has. rewrite Hk, bool_decide_eq_true_2 by done.
    set (f := fun a => html.mkAttribute (html.Namespace a) (html.Key a)
                         (html.Val a +:+ " " +:+ ErrorClass i)).
    assert (∀ name, attr.Attribute (alter f k (html.Attr nd)) name =
                    attr.Attribute (html.Attr nd) name) as Hidx.
    { intros name. apply index_from_keys.
      apply list_eq. intros j. rewrite !list_lookup_fmap.
      destruct (decide (j = k)) as [->|Hjk].
      - rewrite list_lookup_alter_eq. by destruct (html.Attr nd !! k).
      - by rewrite list_lookup_alter_ne. }
    simpl. split.
    + unfold attr.Get. rewrite Hidx, Hk. unfold attr.Val_at.
      rewrite list_lookup_alter_eq. pose proof (index_from_bound _ _ _ _ Hk) as Hb.
      destruct (lookup_lt_is_Some_2 (html.Attr nd) k) as [a ->]; [lia|]. done.
    + intros name Hname. unfold attr.Get. rewrite Hidx.
      destruct (attr.Attribute (html.Attr nd) name) as [j|] eqn:Hj; [|done].
      unfold attr.Val_at. rewrite list_lookup_alter_ne; [done|].
      intros ->. by eapply (index_from_distinct 0 (html.Attr nd) "class" name).
  - eexists. split; [reflexivity|]. split; [by destruct nd|]. simpl.
    unfold attr.Has. rewrite Hk, bool_decide_eq_false_2 by (by intros []).
    split.
    + rewrite Get_snoc. unfold attr.Has. rewrite Hk.
      rewrite bool_decide_eq_false_2 by (by intros []). done.
    + intros name Hname. rewrite Get_snoc. unfold attr.Has, attr.Get.
      destruct (attr.Attribute (html.Attr nd) name) as [j|].
      * by rewrite bool_decide_eq_true_2.
      * rewrite bool_decide_eq_false_2 by (by intros []).
        by rewrite decide_False by (simpl; congruence).
Qed.

Lemma addErrorClass_class_witness :
  ∃ nd',
    addErrorClass (mkGenericIncidentInserter "error" (fun _ => EmptyString))
      doc_select 7 = Ret (<[7 := nd']> doc_select) ∧
    nd' = html.set_Attr (html.Attr nd')
            (element (Some 5) None None (Some 6) None "option"
                     [attribute "value" "foo"; attribute "selected" "selected"]) ∧
    attr.Get (html.Attr nd') "class" = "error" ∧
    ∀ name, name ≠ "class" →
      attr.Get (html.Attr nd') name =
      attr.Get [attribute "value" "foo"; attribute "selected" "selected"] name.
Proof.
  apply (addErrorClass_class (mkGenericIncidentInserter "error" (fun _ => EmptyString))
           doc_select 7
           (element (Some 5) None None (Some 6) None "option"
                    [attribute "value" "foo"; attribute "selected" "selected"])).
  reflexivity.
Defined.

(** ** The inserter: what it touches, what a repeated element does *)

Lemma InsertBefore_content_kept (e : html.ptr) (n : option html.ptr) (c : html.ptr)
    (old : option html.ptr) (h h' : html.heap) :
  html.InsertBefore n c old h = Ret h' → content_kept e h h'.
Proof.
  unfold html.InsertBefore. intros H. pose proof (content_kept_refl e h) as Hk.
  res_inv H as nc Hc. destruct (html.attached nc); [discriminate|].
  res_inv H as pn Hpn. destruct pn as [prev next].
  res_inv H as h1 H1. res_inv H as h2 H2. res_inv H as h3 H3. res_inv H as h4 H4.
  assert (content_kept e h h1) as K1.
  { destruct prev; [|destruct n; [|discriminate]];
      (eapply content_kept_store; [exact H1 | left; auto with relink]). }
  assert (content_kept e h1 h2) as K2.
  { destruct next; [|destruct n; [|discriminate]];
      (eapply content_kept_store; [exact H2 | left; auto with relink]). }
  eapply content_kept_trans; [exact K1|]. eapply content_kept_trans; [exact K2|].
  pose proof (content_kept_refl e h2) as K. frame_store K H3. frame_store K H4.
  frame_store K H. exact K.
Qed.

Lemma addErrorClass_content_kept (i : GenericIncidentInserter) (q node : html.ptr)
    (h h' : html.heap) :
  addErrorClass i h node = Ret h' → node ≠ q → content_kept q h h'.
Proof.
  unfold addErrorClass. intros H Hne. res_inv H as nd Hnd.
  destruct (attr.Attribute (html.Attr nd) "class");
    (eapply content_kept_store; [exact H | by right]).
Qed.

(** X14.  The inserter rewrites attributes only on the elements it is
    given and on their labels.  Every other node that the document holds
    once the fragment is parsed keeps its type, data and attributes
    through the marking and the insertion; only links are rewired. *)
Theorem Insert_frame {E : External} (fuel : nat) (i : GenericIncidentInserter)
    (elements : list LabelableElement) (errors : list string)
    (h h1 h' : html.heap) (nodes : list html.ptr) (q : html.ptr) :
  ParseFragment (Template i errors) h = inr (nodes, h1) →
  Insert fuel i elements errors h = Ret (None, h') →
  (∀ e, e ∈ elements → Element e ≠ q ∧ q ∉ Labels e) →
  content_kept q h1 h'.
Proof.
  intros Hparse H Hq. unfold Insert in H. rewrite Hparse in H.
  res_inv H as hm Hm.
  assert (content_kept q h1 hm) as Km.
  { revert Hm. apply (foldM_invariant (content_kept q h1)); [|apply content_kept_refl].
    intros s e s' He Hs Hstep. destruct (Hq e He) as [Hne Hlab].
    res_inv Hstep as s1 H1. eapply content_kept_trans; [exact Hs|].
    eapply content_kept_trans; [by eapply addErrorClass_content_kept|].
    revert Hstep. apply (foldM_invariant (content_kept q s1)); [|apply content_kept_refl].
    intros s2 l s3 Hl Hs2 Hstep. eapply content_kept_trans; [exact Hs2|].
    eapply addErrorClass_content_kept; [exact Hstep|]. by intros ->. }
  eapply content_kept_trans; [exact Km|].
  destruct (decide (length elements = 1)).
  - res_inv H as e0 He0. res_inv H as ne Hne. res_inv H as c Hc. res_inv H as h2 H2.
    injection H as <-. by eapply InsertBefore_content_kept.
  - res_inv H as e0 He0. res_inv H as anc Hanc. res_inv H as c Hc. res_inv H as h2 H2.
    injection H as <-. by eapply AppendChild_content_kept.
Qed.

Lemma Insert_frame_witness :
  ∃ h',
    example_Insert doc_group None [unlabelled 6; unlabelled 7] ["x"] doc_group
      = Ret (None, h') ∧
    content_kept 8 (doc_group ++ [ul_node]) h'.
Proof.
  eexists. split; [vm_compute; reflexivity|].
  apply (Insert_frame (E := example_external doc_group None) 18
           (DefaultIncidentInserter (E := example_external doc_group None))
           [unlabelled 6; unlabelled 7] ["x"] doc_group (doc_group ++ [ul_node]) _ [9] 8).
  - reflexivity.
  - vm_compute. reflexivity.
  - intros e He. repeat (apply elem_of_cons in He as [->|He]);
      [split; [discriminate | apply not_elem_of_nil]..|].
    by apply elem_of_nil in He.
Defined.

Lemma lca_self (fuel : nat) (h : html.heap) (a : html.ptr) (b : LabelableElement)
    (na : html.Node) (par : html.ptr) :
  h !! a = Some na → html.Parent na = Some par → Element b = a →
  lca fuel h a [b] = Ret par.
Proof.
  intros Ha Hpar Hb. simpl. rewrite Hb. unfold html.load. rewrite Ha. simpl.
  rewrite Hpar, first_shared_Some, Hpar.
  assert (meets fuel h par (Some par) = Ret true) as ->.
  { destruct fuel; simpl; by rewrite decide_True. }
  simpl. by destruct (decide (1 < 1)); [lia|].
Qed.

(** X15.  Given the same element twice, the inserter does not treat it as
    a single element: it computes the ancestor of the pair, which is the
    element's parent, and appends the fragment as the parent's last
    child instead of placing it right after the element. *)
Theorem Insert_same_element_twice {E : External} (fuel : nat)
    (i : GenericIncidentInserter) (e : LabelableElement) (errors : list string)
    (h h1 h' : html.heap) (c : html.ptr) (rest : list html.ptr)
    (ne : html.Node) (par : html.ptr) :
  ParseFragment (Template i errors) h = inr (c :: rest, h1) →
  h1 !! Element e = Some ne →
  html.Parent ne = Some par →
  Insert fuel i [e; e] errors h = Ret (None, h') →
  placed_last_child h' par c.
Proof.
  intros Hparse He Hpar H.
  destruct (proj2 (Insert_placement fuel i [e; e] errors h h1 h' c rest Hparse H))
    as (e0 & ancestor & He0 & Hlca & Hplaced); [simpl; lia|].
  injection He0 as <-. simpl in Hlca.
  assert (lca fuel h1 (Element e) [e] = Ret par) as Hself by (by eapply lca_self).
  simpl in Hself. rewrite Hself in Hlca. by injection Hlca as <-.
Qed.

Lemma Insert_same_element_twice_witness :
  ∃ h',
    example_Insert doc_group None [unlabelled 7; unlabelled 7] ["x"] doc_group
      = Ret (None, h') ∧
    placed_last_child h' 5 9.
Proof.
  eexists. split; [vm_compute; reflexivity|].
  apply (Insert_same_element_twice (E := example_external doc_group None) 18
           (DefaultIncidentInserter (E := example_external doc_group None))
           (unlabelled 7) ["x"] doc_group (doc_group ++ [ul_node]) _ 9 []
           (element (Some 5) None None (Some 6) (Some 8) "input" [attribute "name" "b"]) 5).
  - reflexivity.
  - reflexivity.
  - reflexivity.
  - vm_compute. reflexivity.
Defined.

Lemma fold_left_times (g : string) (el : LabelableElement) (names : list string)
    (elements : list LabelableElement) :
  fold_left (fun elements name => if decide (g ≠ name) then elements else elements ++ [el])
            names elements
  = elements ++ replicate (times_listed g names) el.
Proof.
  unfold times_listed. revert elements.
  induction names as [|name names IH]; intros elements; cbn [fold_left].
  - simpl. by rewrite app_nil_r.
  - rewrite IH. destruct (decide (g ≠ name)) as [Hne|He].
    + by rewrite filter_cons_False.
    + apply dec_stable in He. rewrite filter_cons_True by done. simpl.
      by rewrite <- app_assoc.
Qed.

(** X16.  The elements of an incident in full: every input of the form is
    listed as many times as the incident lists its name, inputs in the
    order of the form's input list.  So a name listed twice yields the
    same element twice, and a name no input carries yields nothing. *)
Theorem elements_of_times (h : html.heap) (form : Form.t) (incident : Incident) :
  (∀ input, input ∈ Form.inputs form → is_Some (h !! input)) →
  processor.elements_of h form incident =
    Ret (flat_map
           (fun input =>
              replicate (times_listed (name_of h input) (Names incident))
                        (labelable form input))
           (Form.inputs form)).
Proof.
  intros Hvalid. unfold processor.elements_of.
  assert (∀ inputs elements,
            (∀ input, input ∈ inputs → is_Some (h !! input)) →
            foldM (fun elements input =>
                     nd ← html.load h input;
                     Ret (fold_left
                            (fun elements name =>
                               if decide (attr.Get (html.Attr nd) "name" ≠ name)
                               then elements
                               else elements ++
                                    [ {| Element := input;
                                         Labels := slice_at (Form.labels form) input |} ])
                            (Names incident) elements))
                  elements inputs
            = Ret (elements ++
                   flat_map
                     (fun input =>
                        replicate (times_listed (name_of h input) (Names incident))
                                  (labelable form input)) inputs)) as Hgen.
  { induction inputs as [|input inputs IH]; intros elements Hv; simpl.
    - by rewrite app_nil_r.
    - destruct (Hv input) as [nd Hn]; [by left|].
      unfold html.load, name_of. rewrite Hn. simpl.
      rewrite (fold_left_times _ (labelable form input)).
      rewrite IH by (intros; apply Hv; by right). by rewrite <- app_assoc. }
  by rewrite Hgen.
Qed.

Lemma elements_of_times_witness :
  processor.elements_of doc_group
    (Form.set_inputs [6; 7; 8] (form_of [] []))
    {| Names := ["b"; "absent"; "b"]; Errors := [] |}
  = Ret [unlabelled 7; unlabelled 7].
Proof.
  apply (elements_of_times doc_group (Form.set_inputs [6; 7; 8] (form_of [] []))
           {| Names := ["b"; "absent"; "b"]; Errors := [] |}).
  intros input Hin.
  repeat (apply elem_of_cons in Hin as [->|Hin]); [eauto..|].
  by apply elem_of_nil in Hin.
Defined.

(** ** Witnesses for the ancestor computation, the writer and the reads *)

(** Builds the chain of parents of a node of a concrete document. *)
Ltac chain_of :=
  eexists; split; [reflexivity|];
  repeat (eapply chain_cons; [reflexivity|simpl]); apply chain_nil.

Lemma lca_strict_common_ancestor_witness :
  ∃ r, lca 18 doc_group 6 [unlabelled 7; unlabelled 8] = Ret r ∧
       Forall (fun x => ∃ l, ancestry doc_group (Element x) l ∧ r ∈ l)
              [unlabelled 6; unlabelled 7; unlabelled 8].
Proof.
  apply (lca_strict_common_ancestor 18 doc_group 0 (unlabelled 6)
           [unlabelled 7; unlabelled 8]).
  - discriminate.
  - repeat apply Forall_cons_2; [| | |apply Forall_nil_2];
      (exists [5; 4; 3; 1; 0]; split; [chain_of|];
       split; [reflexivity|simpl; lia]).
Defined.

Lemma lca_pair_lowest_witness :
  ∃ pre post, [5; 4; 3; 1; 0] = pre ++ 5 :: post ∧ ∀ y, y ∈ pre → y ∉ [5; 4; 3; 1; 0].
Proof.
  apply (lca_pair_lowest 18 doc_group (unlabelled 6) (unlabelled 7)
           [5; 4; 3; 1; 0] [5; 4; 3; 1; 0] 5).
  - chain_of.
  - chain_of.
  - simpl. lia.
  - vm_compute. reflexivity.
  - by left.
Defined.

Lemma Execute_output_witness :
  (EmptyString = EmptyString ∧ Some "malformed fragment" ≠ None) ∨
  ∃ document h p p' h',
    @Parse (example_external text_doc (Some "malformed fragment")) text_markup
      = inr (document, h) ∧
    processor.traverse 12 h document context0
      (new_processor (E := example_external text_doc (Some "malformed fragment"))
         12 New [failing_form] document) = Ret p ∧
    process_forms 12 [EmptyString] (p, h) = Ret (None, (p', h')) ∧
    @Render (example_external text_doc (Some "malformed fragment"))
      h' document EmptyString = (EmptyString, Some "malformed fragment").
Proof.
  apply (Execute_output (E := example_external text_doc (Some "malformed fragment")) 12
           [EmptyString] New [failing_form] EmptyString text_markup EmptyString
           (Some "malformed fragment")).
  vm_compute. reflexivity.
Defined.


(** ** Frame of the population of a form *)

(** X21.  Population of a form rewrites attributes and data only on the
    inputs of the form and, for its selects, on the options recorded for
    them; any other node keeps its type, data and attributes, whatever
    the values are. *)
Theorem populate_frame (fuel : nat) (p : processor.t) (formId : string)
    (form : Form.t) (h h' : html.heap) (q : html.ptr) :
  processor.forms p !! formId = Some form →
  q ∉ Form.inputs form →
  (∀ sel opts, Form.options form !! sel = Some opts → q ∉ opts) →
  processor.populate fuel p formId h = Ret h' →
  content_kept q h h'.
Proof.
  intros Hform Hq Hopts H. unfold processor.populate in H. rewrite Hform in H.
  revert H. apply (foldM_invariant (content_kept q h)); [|apply content_kept_refl].
  intros s input s' Hin Hs Hstep. eapply content_kept_trans; [exact Hs|].
  eapply populate_input_content_kept; [exact Hstep | by intros -> | apply Hopts].
Qed.

Lemma populate_frame_witness :
  ∃ h',
    processor.populate 2 (processor_of None (Form.set_inputs [5] (form_of [("foo", ["bar"])] [])))
      EmptyString text_doc = Ret h' ∧
    content_kept 4 text_doc h'.
Proof.
  eexists. split; [vm_compute; reflexivity|].
  apply (populate_frame 2 (processor_of None (Form.set_inputs [5] (form_of [("foo", ["bar"])] [])))
           EmptyString (Form.set_inputs [5] (form_of [("foo", ["bar"])] [])) text_doc _ 4).
  - vm_compute. reflexivity.
  - intros Hin. apply list_elem_of_singleton in Hin. discriminate.
  - intros sel opts Hsel. vm_compute in Hsel. discriminate.
  - vm_compute. reflexivity.
Defined.

(** ** What the traversal records and what it leaves alone *)

(** A property of the processor that every examined node preserves, under
    a property of the context that every node entered preserves, is
    preserved by the traversal. *)
Lemma traverse_invariant (h : html.heap) (I : processor.t → Prop)
    (J : formContext.t → Prop) :
  (∀ n nd context, h !! n = Some nd → J context → J (processor.enter n nd context)) →
  (∀ n nd context p p' context',
     h !! n = Some nd → J context → I p →
     processor.examine h n nd context p = Ret (p', context') → I p' ∧ J context') →
  ∀ fuel,
    (∀ n context p p', J context → I p →
       processor.traverse fuel h n context p = Ret p' → I p') ∧
    (∀ c context p p', J context → I p →
       processor.children fuel h c context p = Ret p' → I p').
Proof.
  intros Henter Hexamine. induction fuel as [|fuel [IHt IHc]].
  { split; [intros; discriminate|].
    intros [c|] context p p' _ Hp H; [discriminate|]. by injection H as <-. }
  split.
  - intros n context p p' Hctx Hp H. rewrite traverse_S in H.
    res_inv H as nd Hnd. apply load_Ret in Hnd.
    res_inv H as s Hs. destruct s as [p1 context1].
    destruct (Hexamine n nd _ p p1 context1 Hnd (Henter n nd context Hnd Hctx) Hp Hs)
      as [Hp1 Hctx1].
    by apply (IHc _ _ _ _ Hctx1 Hp1 H).
  - intros [c|] context p p' Hctx Hp H; [|by injection H as <-].
    rewrite children_S in H. res_inv H as p1 Hp1. res_inv H as nc Hnc.
    apply (IHc _ _ _ _ Hctx (IHt _ _ _ _ Hctx Hp Hp1) H).
Qed.

Lemma request_kept_refl (p : processor.t) : request_kept p p.
Proof.
  repeat split; [done|]. intros formId.
  by destruct (processor.forms p !! formId).
Qed.

Lemma request_kept_trans (p1 p2 p3 : processor.t) :
  request_kept p1 p2 → request_kept p2 p3 → request_kept p1 p3.
Proof.
  intros (Hf1 & Hd1 & Hl1 & H1) (Hf2 & Hd2 & Hl2 & H2).
  split; [congruence|]. split; [congruence|]. split; [by etrans|].
  intros formId. specialize (H1 formId). specialize (H2 formId).
  destruct (processor.forms p1 !! formId), (processor.forms p2 !! formId),
    (processor.forms p3 !! formId); try done.
  destruct H1 as (? & ? & ? & ?), H2 as (? & ? & ? & ?).
  repeat split; [congruence..|by etrans].
Qed.

(** Replacing a form by one with the same request and at least its inputs. *)
Lemma request_kept_update (p : processor.t) (formId : string) (form form' : Form.t) :
  processor.forms p !! formId = Some form →
  Form.ID form' = Form.ID form → Form.Values form' = Form.Values form →
  Form.Incidents form' = Form.Incidents form →
  Form.inputs form `prefix_of` Form.inputs form' →
  request_kept p (processor.set_forms (<[formId := form']> (processor.forms p)) p).
Proof.
  intros Hform HID Hvalues Hincidents Hinputs. repeat split; [done|].
  intros fid. simpl. destruct (decide (fid = formId)) as [->|Hne].
  - by rewrite lookup_insert_eq, Hform.
  - rewrite lookup_insert_ne by done. by destruct (processor.forms p !! fid).
Qed.

Lemma attach_request_kept (n : html.ptr) (nd : html.Node) (formId : string)
    (form : Form.t) (context : formContext.t) (p : processor.t) :
  processor.forms p !! formId = Some form →
  request_kept p (processor.attach n nd formId form context p).1.
Proof.
  intros Hform. unfold processor.attach.
  destruct (decide _); [apply request_kept_refl|].
  destruct (processor.keep n nd context) as [context'|]; [|apply request_kept_refl].
  simpl. apply (request_kept_update p formId form); [done|..];
    destruct (formContext.Label context'); simpl; try done;
    by apply prefix_app_r.
Qed.

Lemma examine_request_kept (h : html.heap) (n : html.ptr) (nd : html.Node)
    (context context' : formContext.t) (p p' : processor.t) :
  processor.examine h n nd context p = Ret (p', context') → request_kept p p'.
Proof.
  unfold processor.examine. intros H.
  destruct (decide _); [injection H as <- <-; apply request_kept_refl|].
  destruct (decide _); [injection H as <- <-; apply request_kept_refl|].
  res_inv H as formId HformId.
  destruct (processor.forms p !! formId) as [form|] eqn:Hform;
    [|injection H as <- <-; apply request_kept_refl].
  destruct (_ && _).
  { injection H as <- <-. repeat split; simpl; [by apply prefix_app_r|].
    intros fid. by destruct (processor.forms p !! fid). }
  assert (attached : ∀ q c, Ret (processor.attach n nd formId form context p) = Ret (q, c) →
            request_kept p q).
  { intros q c [= Hq].
    pose proof (attach_request_kept n nd formId form context p Hform) as Hk.
    by rewrite Hq in Hk. }
  destruct (formContext.Select context) as [chosen|]; [|exact (attached _ _ H)].
  destruct (decide (html.Data nd = "option")); [|exact (attached _ _ H)].
  injection H as <- <-. by apply (request_kept_update p formId form).
Qed.

(** X22.  The traversal only records: it leaves the configuration and
    the document of the processor as they are, adds and removes no form,
    changes the identifier, the values and the incidents of none, and the
    deferred labels and the inputs of a form keep what they held, in the
    same order, at their front. *)
Theorem traverse_keeps_request (fuel : nat) (h : html.heap) (n : html.ptr)
    (context : formContext.t) (p p' : processor.t) :
  processor.traverse fuel h n context p = Ret p' → request_kept p p'.
Proof.
  intros H.
  apply (proj1 (traverse_invariant h (request_kept p) (fun _ => True)
                  (fun _ _ _ _ _ => I)
                  (fun n nd c q q' c' _ _ Hq Hs =>
                     conj (request_kept_trans p q q' Hq
                             (examine_request_kept h n nd c c' q q' Hs)) I)
                  fuel) n context p p' I (request_kept_refl p) H).
Qed.

Lemma traverse_keeps_request_witness :
  ∃ p',
    processor.traverse 22 doc_recorded 0 context0
      (processor_of None (form_of [("foo", ["bar"])] [])) = Ret p' ∧
    request_kept (processor_of None (form_of [("foo", ["bar"])] [])) p'.
Proof.
  eexists. split; [vm_compute; reflexivity|].
  apply (traverse_keeps_request 22 doc_recorded 0 context0).
  vm_compute. reflexivity.
Defined.

Lemma enter_context_tagged (h : html.heap) (n : html.ptr) (nd : html.Node)
    (context : formContext.t) :
  h !! n = Some nd → context_tagged h context →
  context_tagged h (processor.enter n nd context).
Proof.
  intros Hn [Hlabel Hselect]. unfold processor.enter.
  destruct (decide _) as [Hty|]; [|done].
  destruct (decide (html.Data nd = "form")); [done|].
  destruct (decide (html.Data nd = "label")) as [Hdata|]; [|done].
  split; [|done]. intros l [= <-]. by exists nd.
Qed.

Lemma keep_context_tagged (h : html.heap) (n : html.ptr) (nd : html.Node)
    (context context' : formContext.t) :
  h !! n = Some nd → html.Type' nd = html.ElementNode →
  context_tagged h context → processor.keep n nd context = Some context' →
  context_tagged h context'.
Proof.
  intros Hn Hty [Hlabel Hselect]. unfold processor.keep.
  destruct (decide _); [by intros [= <-]|].
  destruct (decide (html.Data nd = "button")).
  { destruct (decide _); [done | by intros [= <-]]. }
  destruct (decide (html.Data nd = "select")) as [Hdata|]; [|done].
  intros [= <-]. split; [done|]. intros s [= <-]. by exists nd.
Qed.

Lemma well_recorded_update (h : html.heap) (p : processor.t) (formId : string)
    (form' : Form.t) :
  well_recorded h p →
  (∀ sel opts, Form.options form' !! sel = Some opts →
     tagged h "select" sel ∧ Forall (tagged h "option") opts) →
  (∀ input ls, Form.labels form' !! input = Some ls → Forall (tagged h "label") ls) →
  well_recorded h (processor.set_forms (<[formId := form']> (processor.forms p)) p).
Proof.
  intros [Hlabels Hforms] Hoptions Hattached. split; [done|].
  intros fid form. simpl. destruct (decide (fid = formId)) as [->|Hne].
  - rewrite lookup_insert_eq. by intros [= <-].
  - rewrite lookup_insert_ne by done. apply Hforms.
Qed.

Lemma attach_well_recorded (h : html.heap) (n : html.ptr) (nd : html.Node)
    (formId : string) (form : Form.t) (context : formContext.t) (p : processor.t) :
  h !! n = Some nd → html.Type' nd = html.ElementNode →
  processor.forms p !! formId = Some form →
  context_tagged h context → well_recorded h p →
  well_recorded h (processor.attach n nd formId form context p).1 ∧
  context_tagged h (processor.attach n nd formId form context p).2.
Proof.
  intros Hn Hty Hform Hctx Hp. unfold processor.attach.
  destruct (decide _); [done|].
  destruct (processor.keep n nd context) as [context'|] eqn:Hkeep; [|done].
  pose proof (keep_context_tagged h n nd context context' Hn Hty Hctx Hkeep) as Hctx'.
  split; [|done]. simpl.
  destruct (proj2 Hp formId form Hform) as [Hoptions Hattached].
  apply well_recorded_update; [done|..].
  - by destruct (formContext.Label context').
  - destruct (formContext.Label context') as [l|] eqn:Hl; [|done].
    intros input ls. simpl. destruct (decide (input = n)) as [->|Hne].
    + rewrite lookup_insert_eq. intros [= <-]. apply Forall_app. split.
      * unfold slice_at. destruct (Form.labels form !! n) as [ls|] eqn:Hls; simpl.
        -- by apply (Hattached n).
        -- apply Forall_nil_2.
      * apply Forall_singleton. by apply (proj1 Hctx').
    + rewrite lookup_insert_ne by done. apply Hattached.
Qed.

Lemma examine_well_recorded (h : html.heap) (n : html.ptr) (nd : html.Node)
    (context context' : formContext.t) (p p' : processor.t) :
  h !! n = Some nd → context_tagged h context → well_recorded h p →
  processor.examine h n nd context p = Ret (p', context') →
  well_recorded h p' ∧ context_tagged h context'.
Proof.
  intros Hn Hctx Hp. unfold processor.examine. intros H.
  destruct (decide _) as [|Hty]; [by injection H as <- <-|].
  apply dec_stable in Hty.
  destruct (decide _); [by injection H as <- <-|].
  res_inv H as formId HformId.
  destruct (processor.forms p !! formId) as [form|] eqn:Hform;
    [|by injection H as <- <-].
  destruct (_ && _) eqn:Hlabel.
  { injection H as <- <-. split; [|done]. split; [|exact (proj2 Hp)]. simpl.
    apply andb_true_iff in Hlabel as [Hdata%bool_decide_eq_true Hfor].
    apply Forall_app. split; [exact (proj1 Hp)|].
    apply Forall_singleton. by exists nd. }
  assert (attached : ∀ q c, Ret (processor.attach n nd formId form context p) = Ret (q, c) →
            well_recorded h q ∧ context_tagged h c).
  { intros q c [= Hq].
    pose proof (attach_well_recorded h n nd formId form context p Hn Hty Hform Hctx Hp)
      as Hk.
    by rewrite Hq in Hk. }
  destruct (formContext.Select context) as [chosen|] eqn:Hchosen;
    [|exact (attached _ _ H)].
  destruct (decide (html.Data nd = "option")) as [Hdata|]; [|exact (attached _ _ H)].
  injection H as <- <-. split; [|done].
  destruct (proj2 Hp formId form Hform) as [Hoptions Hattached].
  apply well_recorded_update; [done| |done].
  intros s opts. simpl. destruct (decide (s = chosen)) as [->|Hne].
  - rewrite lookup_insert_eq. intros [= <-]. split; [by apply (proj2 Hctx)|].
    apply Forall_app. split.
    + unfold slice_at. destruct (Form.options form !! chosen) as [opts|] eqn:Hopts; simpl.
      * by apply (Hoptions chosen).
      * apply Forall_nil_2.
    + apply Forall_singleton. by exists nd.
  - rewrite lookup_insert_ne by done. apply Hoptions.
Qed.

(** X23.  What the traversal records is of the kind its name says: when
    it starts from a processor and a context of which this holds, every
    label it has deferred is a [label] element with a [for] attribute,
    every option it has recorded is an [option] element, kept under a
    [select] element, and every label it has attached to an input is a
    [label] element. *)
Theorem traverse_well_recorded (fuel : nat) (h : html.heap) (n : html.ptr)
    (context : formContext.t) (p p' : processor.t) :
  context_tagged h context → well_recorded h p →
  processor.traverse fuel h n context p = Ret p' → well_recorded h p'.
Proof.
  apply (proj1 (traverse_invariant h (well_recorded h) (context_tagged h)
                  (enter_context_tagged h)
                  (fun n nd c q q' c' Hn Hc Hq => examine_well_recorded h n nd c c' q q' Hn Hc Hq)
                  fuel)).
Qed.

Lemma traverse_well_recorded_witness :
  ∃ p',
    processor.traverse 22 doc_recorded 0 context0
      (processor_of None (form_of [("foo", ["bar"])] [])) = Ret p' ∧
    well_recorded doc_recorded p'.
Proof.
  eexists. split; [vm_compute; reflexivity|].
  apply (traverse_well_recorded 22 doc_recorded 0 context0
           (processor_of None (form_of [("foo", ["bar"])] []))).
  - split; intros ? [=].
  - split; [apply Forall_nil_2|]. intros formId form Hform.
    simpl in Hform. apply lookup_singleton_Some in Hform as [_ <-].
    split; intros ? ? Hempty; simpl in Hempty; by rewrite lookup_empty in Hempty.
  - vm_compute. reflexivity.
Defined.

(** ** Requests that meet nothing in the document *)

Lemma index_forms_from (forms : list Form.t) (m : gmap string Form.t)
    (formId : string) (f : Form.t) :
  fold_left (fun m form =>
               <[Form.ID form := Form.set_options ∅ (Form.set_labels ∅ form)]> m)
            forms m !! formId = Some f →
  m !! formId = Some f ∨
  ∃ form, form ∈ forms ∧ Form.ID form = formId ∧
          f = Form.set_options ∅ (Form.set_labels ∅ form).
Proof.
  revert m. induction forms as [|form forms IH]; intros m H; simpl in H; [by left|].
  destruct (IH _ H) as [Hm|(form' & Hin & HID & Hf)].
  - destruct (decide (Form.ID form = formId)) as [<-|Hne].
    + rewrite lookup_insert_eq in Hm. injection Hm as <-.
      right. exists form. split; [by left | done].
    + rewrite lookup_insert_ne in Hm by done. by left.
  - right. exists form'. split; [by right | done].
Qed.

Lemma index_forms_lookup (forms : list Form.t) (formId : string) (f : Form.t) :
  index_forms forms !! formId = Some f →
  ∃ form, form ∈ forms ∧ Form.ID form = formId ∧
          f = Form.set_options ∅ (Form.set_labels ∅ form).
Proof.
  intros H. apply index_forms_from in H as [H|H]; [|done].
  by rewrite lookup_empty in H.
Qed.

(** Without inputs, an incident concerns no element and nothing is inserted. *)
Lemma insert_incidents_no_inputs (Insert : IncidentInserter) (form : Form.t)
    (incidents : list Incident) (h : html.heap) :
  Form.inputs form = [] →
  processor.insert_incidents Insert form incidents h = Ret (None, h).
Proof.
  intros Hinputs. induction incidents as [|incident incidents IH]; [done|].
  simpl. unfold processor.elements_of. rewrite Hinputs. simpl. exact IH.
Qed.

(** Without inputs, the body of the loop over the forms changes neither
    the processor nor the document. *)
Lemma process_form_no_inputs (fuel : nat) (formId : string) (p : processor.t)
    (h : html.heap) (form : Form.t) :
  processor.forms p !! formId = Some form → Form.inputs form = [] →
  Forall (fun l => is_Some (h !! l)) (processor.labels p) →
  process_form fuel formId (p, h) = Ret (None, (p, h)).
Proof.
  intros Hform Hinputs Hlabels. unfold process_form. rewrite Hform.
  assert (match_labels h (processor.labels p) form = Ret form) as ->.
  { apply foldM_fixed. intros l Hl.
    destruct (proj1 (Forall_forall _ _) Hlabels l Hl) as [nl Hnl].
    unfold match_label, html.load. by rewrite Hnl, Hinputs. }
  rewrite bind_Ret_l, insert_id by done.
  assert (processor.set_forms (processor.forms p) p = p) as -> by by destruct p.
  unfold processor.populate, processor.insert. rewrite Hform, Hinputs. simpl.
  by rewrite insert_incidents_no_inputs.
Qed.

Lemma process_forms_no_inputs (fuel : nat) (order : list string) (p : processor.t)
    (h : html.heap) :
  (∀ formId, formId ∈ order →
     ∃ form, processor.forms p !! formId = Some form ∧ Form.inputs form = []) →
  Forall (fun l => is_Some (h !! l)) (processor.labels p) →
  process_forms fuel order (p, h) = Ret (None, (p, h)).
Proof.
  intros Hforms Hlabels. induction order as [|formId order IH]; [done|].
  destruct (Hforms formId) as (form & Hform & Hinputs); [by left|].
  cbn [process_forms]. rewrite (process_form_no_inputs fuel formId p h form) by done.
  rewrite bind_Ret_l. apply IH. intros fid Hfid. apply Hforms. by right.
Qed.

(** X24.  A request that meets nothing in the document changes nothing:
    when no populatable element of the parsed document belongs to a form
    of the request, [Execute] inserts no incident, populates no value and
    hands the document to [Render] as the parser returned it, whatever
    values and incidents the forms carry. *)
Theorem Execute_nothing_to_populate {E : External} (fuel : nat) (order : list string)
    (fpf : FormPopulationFilter) (forms : list Form.t) (w r : string)
    (document : html.ptr) (h : html.heap) (l : list (html.ptr * option html.ptr)) :
  Parse r = inr (document, h) →
  scope fuel h document None = Ret l →
  (∀ form, form ∈ forms →
     Form.inputs form = [] ∧ inputs_of h (Form.ID form) l = []) →
  (∀ formId, formId ∈ order → is_Some (index_forms forms !! formId)) →
  Execute fuel order fpf forms w r =
    Ret ((Render h document w).2, (Render h document w).1).
Proof.
  intros Hparse Hscope Hforms Horder. unfold Execute. rewrite Hparse.
  destruct (proj1 (traverse_scope fuel h) document context0
              (new_processor fuel fpf forms document) l)
    as (p & Htraverse & Hext); [done | done |].
  rewrite Htraverse, bind_Ret_l.
  rewrite (process_forms_no_inputs fuel order p h).
  - rewrite bind_Ret_l. by destruct (Render h document w).
  - intros formId [f Hf]%Horder. specialize (Hext formId). simpl in Hext.
    rewrite Hf in Hext. simpl in Hext.
    destruct (processor.forms p !! formId) as [form|]; [|done].
    exists form. split; [done|]. injection Hext as ->.
    apply index_forms_lookup in Hf as (form0 & Hin & <- & ->).
    destruct (Hforms form0 Hin) as [Hinputs Hnone]. simpl.
    by rewrite Hinputs, Hnone.
  - assert (well_recorded h p) as [Hlabels _].
    { apply (proj1 (traverse_invariant h (well_recorded h) (context_tagged h)
                      (enter_context_tagged h)
                      (fun n nd c q q' c' Hn Hc Hq =>
                         examine_well_recorded h n nd c c' q q' Hn Hc Hq)
                      fuel) document context0 (new_processor fuel fpf forms document));
        [by split | | done].
      split; [apply Forall_nil_2|]. intros formId f Hf. simpl in Hf.
      apply index_forms_lookup in Hf as (form0 & _ & _ & ->).
      split; intros ? ? Hempty; simpl in Hempty; by rewrite lookup_empty in Hempty. }
    eapply Forall_impl; [exact Hlabels|]. intros x (nd & Hnd & _). by exists nd.
Qed.

Lemma Execute_nothing_to_populate_witness :
  Execute (E := example_external text_doc None) 12 ["signup"] New [absent_form]
    EmptyString text_markup = Ret (None, "<!DOCTYPE html>").
Proof.
  apply (Execute_nothing_to_populate (E := example_external text_doc None) 12
           ["signup"] New [absent_form] EmptyString text_markup 0 text_doc
           [(0, None); (1, None); (2, None); (3, None); (4, Some 4); (5, Some 4)]).
  - reflexivity.
  - vm_compute. reflexivity.
  - intros form ->%list_elem_of_singleton. split; [done|]. vm_compute. reflexivity.
  - intros formId ->%list_elem_of_singleton. vm_compute. eauto.
Defined.

(** ** Labels whose reference names no input *)

(** X25.  A label with a [for] attribute is matched by the value of that
    attribute only: when it equals the [id] of no input of the form, the
    label is left out and the form stays as it was. *)
Theorem match_labels_unmatched (h : html.heap) (labels : list html.ptr)
    (form : Form.t) :
  Forall (fun l => is_Some (h !! l)) labels →
  Forall (fun input => is_Some (h !! input)) (Form.inputs form) →
  (∀ label input nl ni,
     label ∈ labels → input ∈ Form.inputs form →
     h !! label = Some nl → h !! input = Some ni →
     attr.Get (html.Attr nl) "for" ≠ attr.Get (html.Attr ni) "id") →
  match_labels h labels form = Ret form.
Proof.
  intros Hlabels Hinputs Hne. apply foldM_fixed. intros label Hlabel.
  destruct (proj1 (Forall_forall _ _) Hlabels label Hlabel) as [nl Hnl].
  unfold match_label, html.load. rewrite Hnl, bind_Ret_l.
  apply foldM_fixed. intros input Hinput.
  destruct (proj1 (Forall_forall _ _) Hinputs input Hinput) as [ni Hni].
  rewrite Hni, bind_Ret_l. rewrite decide_False; [done|].
  by apply (Hne label input).
Qed.

Lemma match_labels_unmatched_witness :
  match_labels doc_recorded [7] (Form.set_inputs [8; 10] (form_of [] []))
    = Ret (Form.set_inputs [8; 10] (form_of [] [])).
Proof.
  apply (match_labels_unmatched doc_recorded [7]
           (Form.set_inputs [8; 10] (form_of [] []))).
  - repeat apply Forall_cons_2; [by eexists | apply Forall_nil_2].
  - repeat apply Forall_cons_2; [by eexists..| apply Forall_nil_2].
  - intros label input nl ni ->%list_elem_of_singleton Hinput Hnl Hni.
    injection Hnl as <-.
    apply elem_of_cons in Hinput as [->|Hinput];
      [|apply list_elem_of_singleton in Hinput as ->];
      injection Hni as <-; discriminate.
Defined.

(** ** Fragments without a node *)

Lemma addErrorClass_total (i : GenericIncidentInserter) (h : html.heap)
    (node : html.ptr) :
  node < length h →
  ∃ h', addErrorClass i h node = Ret h' ∧ length h' = length h.
Proof.
  intros Hnode. destruct (lookup_lt_is_Some_2 h node Hnode) as [nd Hnd].
  unfold addErrorClass, html.load, html.store. rewrite Hnd, bind_Ret_l.
  destruct (attr.Attribute _ _); eexists; (split; [done|apply length_insert]).
Qed.

Lemma addErrorClass_all_total (i : GenericIncidentInserter) (nodes : list html.ptr)
    (h : html.heap) :
  Forall (fun n => n < length h) nodes →
  ∃ h', foldM (addErrorClass i) h nodes = Ret h' ∧ length h' = length h.
Proof.
  revert h. induction nodes as [|n nodes IH]; intros h Hnodes; [by exists h|].
  apply Forall_cons in Hnodes as [Hn Hnodes].
  destruct (addErrorClass_total i h n Hn) as (h1 & H1 & Hlen1).
  destruct (IH h1) as (h' & H' & Hlen'); [by rewrite Hlen1|].
  exists h'. simpl. rewrite H1, bind_Ret_l. split; [done | congruence].
Qed.

(** X26.  When the template writes markup without any node, the fragment
    is empty and [Insert], called for one element, does not return: after
    the element and its labels have been marked, the read of
    [errorNode[0]] is out of range. *)
Theorem Insert_empty_fragment {E : External} (fuel : nat)
    (i : GenericIncidentInserter) (element : LabelableElement)
    (errors : list string) (h h1 : html.heap) :
  ParseFragment (Template i errors) h = inr ([], h1) →
  Element element < length h1 →
  Forall (fun l => l < length h1) (Labels element) →
  Insert fuel i [element] errors h = Panic (IndexOutOfRange "errorNode" 0 0).
Proof.
  intros Hparse Helement Hlabels. unfold Insert. rewrite Hparse.
  destruct (addErrorClass_total i h1 _ Helement) as (h2 & H2 & Hlen2).
  destruct (addErrorClass_all_total i (Labels element) h2) as (h3 & H3 & Hlen3);
    [by rewrite Hlen2|].
  simpl. rewrite H2, bind_Ret_l, H3. simpl.
  destruct (lookup_lt_is_Some_2 h3 (Element element)) as [ne Hne]; [congruence|].
  unfold html.load. by rewrite Hne.
Qed.

Lemma Insert_empty_fragment_witness :
  Insert (E := empty_fragment_external text_doc) 12
    (mkGenericIncidentInserter "error" (fun _ => EmptyString))
    [unlabelled 5] ["This field is required."] text_doc
  = Panic (IndexOutOfRange "errorNode" 0 0).
Proof.
  apply (Insert_empty_fragment (E := empty_fragment_external text_doc) 12
           (mkGenericIncidentInserter "error" (fun _ => EmptyString))
           (unlabelled 5) ["This field is required."] text_doc text_doc).
  - reflexivity.
  - simpl. lia.
  - apply Forall_nil_2.
Defined.
